(** * Fermi: element matrices of the neutron-diffusion discretisation

    A shallow embedding of [src/element.h]: the two concrete elements
    [ElementSegment2] and [Quad2D], their Jacobian step
    [computeInverseJacobian] and the two local matrices [computeAe] and
    [computeBe].

    [element.h] includes [fem.h] and [mesh.h]; what it uses of them
    (the [Segment2] tables, [Matrix<DIM>::inverse], [Node], [ElementBase])
    is an interface here: the code of [element.h] is embedded once, over any
    implementation of that interface, and over any arithmetic on the scalar
    type that stands for C++ [double].

    What holds of the control flow and of the data flow (which entries are
    written, what is read, what a result depends on) is proved over every
    arithmetic.  What holds of the values (symmetry, the exact matrices of
    the segment, a determinant that is zero) is proved in exact arithmetic,
    with [R] for [double]; the last section runs the same code on binary64,
    where these values are reached up to rounding, or not at all where a
    product overflows. *)

From Stdlib Require Import Floats ZArith.
From Stdlib Require Import Reals Lra Lia FunctionalExtensionality.
From stdpp Require Import base list.

Set Default Proof Using "Type".

(** ** Scalars

    [element.h] uses three things of [double]: the literal [0.0], [+] (as
    [+=]) and [*].  The embedding keeps the order of the operations of the
    source, so it can be read at any carrier: at [R] it is the exact
    arithmetic the finite element method is stated in, at [float] it is
    binary64. *)

Class Scalar (T : Type) : Type := {
  zero : T;
  add : T -> T -> T;
  mul : T -> T -> T
}.

Declare Scope scalar_scope.
Delimit Scope scalar_scope with sc.
Infix "+" := add : scalar_scope.
Infix "*" := mul : scalar_scope.

#[export] Instance R_Scalar : Scalar R := {| zero := 0%R; add := Rplus; mul := Rmult |}.

(** ** Outcomes of a call

    A call returns, or an error propagates out of it, or it indexes a
    [std::vector] or an array outside its bounds, where C++ leaves the
    behaviour undefined. *)

Inductive Error : Type :=
| DegenerateGeometryError (gp : nat)
| ShapeMismatchError.

Inductive outcome (A : Type) : Type :=
| Returns (a : A)
| Raises (err : Error)
| OutOfRange.
Arguments Returns {A} a.
Arguments Raises {A} err.
Arguments OutOfRange {A}.

#[export] Instance outcome_ret : MRet outcome := fun A a => Returns a.
#[export] Instance outcome_bind : MBind outcome := fun A B f m =>
  match m with
  | Returns a => f a
  | Raises err => Raises err
  | OutOfRange => OutOfRange
  end.

(** [a[i]] on a [std::vector] or [std::array]. *)
Definition at1 {A} (a : list A) (i : nat) : outcome A :=
  match a !! i with
  | Some v => Returns v
  | None => OutOfRange
  end.

(** [a[i][j]] and [a[n][i][gp]]. *)
Definition at2 {A} (a : list (list A)) (i j : nat) : outcome A :=
  row ← at1 a i; at1 row j.

Definition at3 {A} (a : list (list (list A))) (n i gp : nat) : outcome A :=
  plane ← at1 a n; at2 plane i gp.

(** [a[i] = v]. *)
Definition store {A} (a : list A) (i : nat) (v : A) : outcome (list A) :=
  _ ← at1 a i; Returns (<[i := v]> a).

(** [for (k = 0; k < n; k++) body], the loop state passed along. *)
Definition for_range {St} (n : nat) (body : nat -> St -> outcome St) (s : St) : outcome St :=
  foldl (fun acc k => acc ≫= body k) (Returns s) (seq 0 n).

(** ** What [element.h] takes from [mesh.h] *)

Module mesh.

(** A point of physical space; [element.h] reads [x] only. *)
Record Node (T : Type) : Type := { x : T; y : T; z : T }.
Arguments x {T} _.
Arguments y {T} _.
Arguments z {T} _.

Record ElementBase (T : Type) : Type := {
  nodes : list (Node T);
  nodeIndexes : list nat
}.
Arguments nodes {T} _.
Arguments nodeIndexes {T} _.

End mesh.

(** ** What [element.h] takes from [fem.h] *)

Module fem.

(** [Matrix<DIM>]: the entries [data[i][j]].  The source indexes a matrix
    with the constants below [DIM] only. *)
Record Matrix (T : Type) : Type := { data : nat -> nat -> T }.
Arguments data {T} _ _ _.

(** [m.data[i][j] = v]. *)
Definition set {T} (m : Matrix T) (i j : nat) (v : T) : Matrix T :=
  {| data := fun i' j' =>
       if decide (i' = i /\ j' = j) then v else data m i' j' |}.

(** The tables of a reference element: [sh()[node][gp]],
    [dsh()[node][direction][gp]] and [weights()[gp]]. *)
Record Shape (T : Type) : Type := {
  sh : list (list T);
  dsh : list (list (list T));
  weights : list T
}.
Arguments sh {T} _.
Arguments dsh {T} _.
Arguments weights {T} _.

End fem.

(** The part of [fem.h] that [element.h] calls.

    - [Segment2] is the value of a default-constructed [Segment2]: the three
      tables that [sh()], [dsh()] and [weights()] return, the same at every
      call.
    - [inverse DIM jac ijac det] is [jac.inverse(ijac, det)] on a
      [Matrix<DIM>]: [ijac] and [det] are passed by reference, so the call
      is given what they hold and returns its status with what they hold
      afterwards.  [element.h] calls it as a statement inside a function
      that itself reports by an [int]: the call is taken to report by its
      returned status and to throw nothing.
    - [indet] is what a [double] declared without initialiser holds. *)
Class Fem (T : Type) : Type := {
  Segment2 : fem.Shape T;
  inverse : nat -> fem.Matrix T -> fem.Matrix T -> T -> Z * fem.Matrix T * T;
  indet : T
}.

(** A [Matrix<DIM>] declared without initialiser.  What such an object
    holds is not fixed by the program: the embedding takes it from the
    environment of the call, [indet] in every entry, the same at every
    declaration of one call.  Two calls may find different contents
    ([with_indet] below).  The storage of a local of a loop body is in
    practice the same at every pass and holds what the pass before left in
    it: the statements that depend on what uninitialised storage holds are
    made for an [inverse] that assigns [ijac.data[0][0]] and [det] on every
    call, where that content plays no part, or for one that refuses at
    every point, where nothing is written between two passes. *)
Definition uninit {T} {F : Fem T} : fem.Matrix T := {| fem.data := fun _ _ => indet |}.

(** ** [element.h]

    The loops run an [int] or a [size_t] index up to a [size_t] bound; the
    index is a [nat] here, which is the same below [2^31] nodes.  The
    local matrices are [std::vector<double>] of [n * n] entries, row-major:
    lists, read with [at1] and written with [store]. *)

(** [ElementDiffusion<DIM>]: the base element with the four material
    parameters. *)
Record ElementDiffusion (T : Type) : Type := {
  base :> mesh.ElementBase T;
  xs_a : T;
  xs_f : T;
  nu : T;
  d : T
}.
Arguments base {T} _.
Arguments xs_a {T} _.
Arguments xs_f {T} _.
Arguments nu {T} _.
Arguments d {T} _.

Module ElementSegment2.
Section code.
Context {T : Type} {Sc : Scalar T} {F : Fem T}.
Local Open Scope scalar_scope.

(** Lines 48-59: the loops that fill the local [jac]. *)
Definition jacobian (e : ElementDiffusion T) (gp : nat) : outcome (fem.Matrix T) :=
  let dsh := fem.dsh Segment2 in
  let num_nodes := length (mesh.nodes e) in
  for_range 1 (fun i jac =>
    for_range 1 (fun j jac =>
      let jac := fem.set jac i j zero in
      for_range num_nodes (fun n jac =>
        a ← at3 dsh n i gp;
        nd ← at1 (mesh.nodes e) n;
        Returns (fem.set jac i j (fem.data jac i j + a * mesh.x nd))) jac) jac) uninit.

(** Lines 47-62.  [ijac] and [det] are references: the call returns its
    [int] with what they hold afterwards.  The status of [jac.inverse] is
    dropped. *)
Definition computeInverseJacobian (e : ElementDiffusion T)
    (ijac : fem.Matrix T) (det : T) (gp : nat) : outcome (Z * fem.Matrix T * T) :=
  jac ← jacobian e gp;
  let '(_, ijac, det) := inverse 1 jac ijac det in
  Returns (0%Z, ijac, det).

(** Lines 64-85. *)
Definition computeAe (e : ElementDiffusion T) : outcome (list T) :=
  let n := length (mesh.nodes e) in
  let Ae := replicate (n * n) zero in
  let det := indet in
  let shapes := fem.sh Segment2 in
  let dsh := fem.dsh Segment2 in
  let wgp := fem.weights Segment2 in
  '(Ae, _) ← for_range (length wgp) (fun gp '(Ae, det) =>
    let ijac := uninit in
    '(_, ijac, det) ← computeInverseJacobian e ijac det gp;
    Ae ← for_range n (fun i Ae =>
      for_range n (fun j Ae =>
        a ← at3 dsh i 0 gp;
        let dsh_i := a * fem.data ijac 0 0 in
        b ← at3 dsh j 0 gp;
        let dsh_j := b * fem.data ijac 0 0 in
        si ← at2 shapes i gp;
        sj ← at2 shapes j gp;
        w ← at1 wgp gp;
        old ← at1 Ae (n * i + j);
        store Ae (n * i + j)
          (old + (d e * dsh_i * dsh_j + xs_a e * si * sj) * w * det)) Ae) Ae;
    Returns (Ae, det)) (Ae, det);
  Returns Ae.

(** Lines 87-105. *)
Definition computeBe (e : ElementDiffusion T) : outcome (list T) :=
  let n := length (mesh.nodes e) in
  let Be := replicate (n * n) zero in
  let shapes := fem.sh Segment2 in
  let wgp := fem.weights Segment2 in
  for_range (length wgp) (fun gp Be =>
    let det := indet in
    let ijac := uninit in
    '(_, ijac, det) ← computeInverseJacobian e ijac det gp;
    for_range n (fun i Be =>
      for_range n (fun j Be =>
        si ← at2 shapes i gp;
        sj ← at2 shapes j gp;
        w ← at1 wgp gp;
        old ← at1 Be (n * i + j);
        store Be (n * i + j) (old + nu e * xs_f e * si * sj * w * det)) Be) Be) Be.

End code.
End ElementSegment2.

Module Quad2D.
Section code.
Context {T : Type} {Sc : Scalar T} {F : Fem T}.
Local Open Scope scalar_scope.

(** Lines 112-123: the loops that fill the local [jac]. *)
Definition jacobian (e : ElementDiffusion T) (gp : nat) : outcome (fem.Matrix T) :=
  let dsh := fem.dsh Segment2 in
  let num_nodes := length (mesh.nodes e) in
  for_range 2 (fun i jac =>
    for_range 2 (fun j jac =>
      let jac := fem.set jac i j zero in
      for_range num_nodes (fun n jac =>
        a ← at3 dsh n 0 gp;
        nd ← at1 (mesh.nodes e) n;
        Returns (fem.set jac i j (fem.data jac i j + a * mesh.x nd))) jac) jac) uninit.

(** Lines 111-126. *)
Definition computeInverseJacobian (e : ElementDiffusion T)
    (ijac : fem.Matrix T) (det : T) (gp : nat) : outcome (Z * fem.Matrix T * T) :=
  jac ← jacobian e gp;
  let '(_, ijac, det) := inverse 2 jac ijac det in
  Returns (0%Z, ijac, det).

(** Lines 128-149. *)
Definition computeAe (e : ElementDiffusion T) : outcome (list T) :=
  let n := length (mesh.nodes e) in
  let Ae := replicate (n * n) zero in
  let det := indet in
  let shapes := fem.sh Segment2 in
  let dsh := fem.dsh Segment2 in
  let wgp := fem.weights Segment2 in
  '(Ae, _) ← for_range (length wgp) (fun gp '(Ae, det) =>
    let ijac := uninit in
    '(_, ijac, det) ← computeInverseJacobian e ijac det gp;
    Ae ← for_range n (fun i Ae =>
      for_range n (fun j Ae =>
        a ← at3 dsh i 0 gp;
        let dsh_i := a * fem.data ijac 0 0 in
        b ← at3 dsh j 0 gp;
        let dsh_j := b * fem.data ijac 0 0 in
        si ← at2 shapes i gp;
        sj ← at2 shapes j gp;
        w ← at1 wgp gp;
        old ← at1 Ae (n * i + j);
        store Ae (n * i + j)
          (old + (d e * dsh_i * dsh_j + xs_a e * si * sj) * w * det)) Ae) Ae;
    Returns (Ae, det)) (Ae, det);
  Returns Ae.

(** Lines 151-169. *)
Definition computeBe (e : ElementDiffusion T) : outcome (list T) :=
  let n := length (mesh.nodes e) in
  let Be := replicate (n * n) zero in
  let shapes := fem.sh Segment2 in
  let wgp := fem.weights Segment2 in
  for_range (length wgp) (fun gp Be =>
    let det := indet in
    let ijac := uninit in
    '(_, ijac, det) ← computeInverseJacobian e ijac det gp;
    for_range n (fun i Be =>
      for_range n (fun j Be =>
        si ← at2 shapes i gp;
        sj ← at2 shapes j gp;
        w ← at1 wgp gp;
        old ← at1 Be (n * i + j);
        store Be (n * i + j) (old + nu e * xs_f e * si * sj * w * det)) Be) Be) Be.

End code.
End Quad2D.

(** An object behind an [ElementDiffusion<DIM>] pointer is of one of the
    two concrete classes; the virtual calls go to its overriders. *)
Inductive Element (T : Type) : Type :=
| segment2 (e : ElementDiffusion T)
| quad2d (e : ElementDiffusion T).
Arguments segment2 {T} e.
Arguments quad2d {T} e.

Section dispatch.
Context {T : Type} {Sc : Scalar T} {F : Fem T}.

Definition fields (el : Element T) : ElementDiffusion T :=
  match el with segment2 e | quad2d e => e end.

(** The template argument of the base class. *)
Definition DIM (el : Element T) : nat :=
  match el with segment2 _ => 1 | quad2d _ => 2 end.

Definition jacobian (el : Element T) : nat -> outcome (fem.Matrix T) :=
  match el with
  | segment2 e => ElementSegment2.jacobian e
  | quad2d e => Quad2D.jacobian e
  end.

Definition computeInverseJacobian (el : Element T) :
    fem.Matrix T -> T -> nat -> outcome (Z * fem.Matrix T * T) :=
  match el with
  | segment2 e => ElementSegment2.computeInverseJacobian e
  | quad2d e => Quad2D.computeInverseJacobian e
  end.

Definition computeAe (el : Element T) : outcome (list T) :=
  match el with
  | segment2 e => ElementSegment2.computeAe e
  | quad2d e => Quad2D.computeAe e
  end.

Definition computeBe (el : Element T) : outcome (list T) :=
  match el with
  | segment2 e => ElementSegment2.computeBe e
  | quad2d e => Quad2D.computeBe e
  end.

End dispatch.

(** ** Construction (lines 35-37, 45 and 109)

    The constructor of [ElementDiffusion<DIM>] hands [nodes_] and
    [nodeIndexes_] to the constructor of [ElementBase<DIM>], which is in
    [mesh.h], and copies the four parameters.  Both concrete classes
    inherit it ([using ElementDiffusion::ElementDiffusion]). *)
Class Mesh (T : Type) : Type := {
  ElementBase_new : nat -> list (mesh.Node T) -> list nat -> outcome (mesh.ElementBase T)
}.

Section construction.
Context {T : Type} {Me : Mesh T}.

Definition ElementDiffusion_new (DIM : nat)
    (nodes_ : list (mesh.Node T)) (nodeIndexes_ : list nat)
    (xs_a_ xs_f_ nu_ d_ : T) : outcome (ElementDiffusion T) :=
  b ← ElementBase_new DIM nodes_ nodeIndexes_;
  Returns {| base := b; xs_a := xs_a_; xs_f := xs_f_; nu := nu_; d := d_ |}.

Definition ElementSegment2_new nodes_ nodeIndexes_ xs_a_ xs_f_ nu_ d_ : outcome (Element T) :=
  e ← ElementDiffusion_new 1 nodes_ nodeIndexes_ xs_a_ xs_f_ nu_ d_;
  Returns (segment2 e).

Definition Quad2D_new nodes_ nodeIndexes_ xs_a_ xs_f_ nu_ d_ : outcome (Element T) :=
  e ← ElementDiffusion_new 2 nodes_ nodeIndexes_ xs_a_ xs_f_ nu_ d_;
  Returns (quad2d e).

End construction.

(** ** The absent headers, as the specification describes them *)

#[export] Instance R_eq_dec : EqDecision R := Req_dec_T.
#[export] Instance R_lt_dec : RelDecision Rlt := Rlt_dec.

(** The determinant of a [DIM] by [DIM] matrix, for the dimensions that
    [element.h] uses. *)
Definition determinant (DIM : nat) (m : fem.Matrix R) : R :=
  match DIM with
  | 1 => fem.data m 0 0
  | 2 => fem.data m 0 0 * fem.data m 1 1 - fem.data m 0 1 * fem.data m 1 0
  | _ => 0
  end.

Module spec.
Local Open Scope R_scope.

(** Modelled from the spec: the [Segment2] tables of [fem.h], which is not
    among the sources.  The specification asks of them (4.1) the values
    and the derivatives of the shape functions of the two-node segment at
    the points of a Gaussian rule, and the weights of the rule, exact for
    the polynomials the element integrates.  These are the two linear
    functions [(1 - xi) / 2] and [(1 + xi) / 2] on [[-1, 1]], at the
    points [-1 / sqrt 3] and [1 / sqrt 3], with the weights [1] and [1]. *)
Definition xi : R := / sqrt 3.

Definition Segment2_tables : fem.Shape R := {|
  fem.sh := [ [ (1 + xi) / 2; (1 - xi) / 2 ];
              [ (1 - xi) / 2; (1 + xi) / 2 ] ];
  fem.dsh := [ [ [ - (1 / 2); - (1 / 2) ] ];
               [ [ 1 / 2; 1 / 2 ] ] ];
  fem.weights := [ 1; 1 ]
|}.

(** Modelled from the spec: the test of [Matrix<DIM>::inverse] (4.2),
    "[det] is numerically zero or below a configurable tolerance". *)
Definition degenerate (tol det : R) : bool :=
  bool_decide (det = 0) || bool_decide (det < tol).

(** Modelled from the spec: [Matrix<DIM>::inverse] of [fem.h] (4.2).  It
    computes the determinant into [det]; on a degenerate matrix it reports
    the failure by its status and leaves [inv] as it was; otherwise it
    writes the inverse, the reciprocal for [DIM = 1] and the cofactor
    form for [DIM = 2].  [element.h] uses no other dimension. *)
Definition Matrix_inverse (tol : R) (DIM : nat) (m inv : fem.Matrix R) (det : R)
    : Z * fem.Matrix R * R :=
  match DIM with
  | 1 =>
      let det := determinant 1 m in
      if degenerate tol det then (1%Z, inv, det)
      else (0%Z, fem.set inv 0 0 (1 / det), det)
  | 2 =>
      let det := determinant 2 m in
      if degenerate tol det then (1%Z, inv, det)
      else (0%Z,
            fem.set (fem.set (fem.set (fem.set inv
              0 0 (fem.data m 1 1 / det))
              0 1 (- fem.data m 0 1 / det))
              1 0 (- fem.data m 1 0 / det))
              1 1 (fem.data m 0 0 / det),
            det)
  | _ => (1%Z, inv, det)
  end.

(** The headers over [R]: [tol] is the tolerance of [inverse], [garbage]
    the content of uninitialised storage. *)
Definition headers (tol garbage : R) : Fem R := {|
  Segment2 := Segment2_tables;
  inverse := Matrix_inverse tol;
  indet := garbage
|}.

(** Modelled from the spec: the constructor of [ElementBase<DIM>] of
    [mesh.h], which is not among the sources.  By 3 and 7 it fails with
    [ShapeMismatchError] unless [nodes] and [nodeIndexes] have the same
    length, the local node count [expected DIM] of the element kind. *)
Definition ElementBase_ctor {T} (expected : nat -> nat) (DIM : nat)
    (nodes_ : list (mesh.Node T)) (nodeIndexes_ : list nat)
    : outcome (mesh.ElementBase T) :=
  if decide (length nodes_ = length nodeIndexes_ /\ length nodes_ = expected DIM)
  then Returns {| mesh.nodes := nodes_; mesh.nodeIndexes := nodeIndexes_ |}
  else Raises ShapeMismatchError.

Definition checked_mesh {T} (expected : nat -> nat) : Mesh T :=
  {| ElementBase_new := ElementBase_ctor expected |}.

End spec.

(** ** The same headers on binary64

    C++ [double] is IEEE 754 binary64 on the platforms the program is built
    for, and so is Rocq's [float], rounding to nearest even.  With the
    tables and the [inverse] above written on [float], the code of
    [element.h] runs as it is. *)

#[export] Instance binary64_Scalar : Scalar float :=
  {| zero := 0%float; add := PrimFloat.add; mul := PrimFloat.mul |}.

Module binary64.
Local Open Scope float_scope.

(** Modelled from the spec: [spec.Segment2_tables], rounded. *)
Definition xi : float := 1 / PrimFloat.sqrt 3.

Definition Segment2_tables : fem.Shape float := {|
  fem.sh := [ [ (1 + xi) / 2; (1 - xi) / 2 ];
              [ (1 - xi) / 2; (1 + xi) / 2 ] ];
  fem.dsh := [ [ [ - (1 / 2); - (1 / 2) ] ];
               [ [ 1 / 2; 1 / 2 ] ] ];
  fem.weights := [ 1; 1 ]
|}.

(** Modelled from the spec: [spec.degenerate] and [spec.Matrix_inverse]. *)
Definition degenerate (tol det : float) : bool := (det =? 0) || (det <? tol).

Definition Matrix_inverse (tol : float) (DIM : nat) (m inv : fem.Matrix float)
    (det : float) : Z * fem.Matrix float * float :=
  match DIM with
  | 1%nat =>
      let det := fem.data m 0 0 in
      if degenerate tol det then (1%Z, inv, det)
      else (0%Z, fem.set inv 0 0 (1 / det), det)
  | 2%nat =>
      let det := fem.data m 0 0 * fem.data m 1 1 - fem.data m 0 1 * fem.data m 1 0 in
      if degenerate tol det then (1%Z, inv, det)
      else (0%Z,
            fem.set (fem.set (fem.set (fem.set inv
              0 0 (fem.data m 1 1 / det))
              0 1 (- fem.data m 0 1 / det))
              1 0 (- fem.data m 1 0 / det))
              1 1 (fem.data m 0 0 / det),
            det)
  | _ => (1%Z, inv, det)
  end.

Definition headers (tol garbage : float) : Fem float := {|
  Segment2 := Segment2_tables;
  inverse := Matrix_inverse tol;
  indet := garbage
|}.

Definition node (x y : float) : mesh.Node float :=
  {| mesh.x := x; mesh.y := y; mesh.z := 0 |}.

Definition two_nodes (x0 y0 x1 y1 xs_a_ xs_f_ nu_ d_ : float) : ElementDiffusion float := {|
  base := {| mesh.nodes := [ node x0 y0; node x1 y1 ]; mesh.nodeIndexes := [ 0%nat; 1%nat ] |};
  xs_a := xs_a_; xs_f := xs_f_; nu := nu_; d := d_
|}.

End binary64.

(** ** Vocabulary of the statements *)

(** What a read holds when it is in range. *)
Definition value {A} (dflt : A) (o : outcome A) : A :=
  match o with Returns a => a | _ => dflt end.

Section vocabulary.
Context {T : Type} {Sc : Scalar T} {F : Fem T}.
Local Open Scope scalar_scope.

Definition dsh_at (n i gp : nat) : T := value zero (at3 (fem.dsh Segment2) n i gp).
Definition sh_at (i gp : nat) : T := value zero (at2 (fem.sh Segment2) i gp).
Definition w_at (gp : nat) : T := value zero (at1 (fem.weights Segment2) gp).

(** Coordinate [c] of node [n]: [x], [y], [z] for [c = 0, 1, 2]. *)
Definition coordinate (nd : mesh.Node T) (c : nat) : T :=
  match c with 0 => mesh.x nd | 1 => mesh.y nd | _ => mesh.z nd end.

Definition coordinate_at (e : ElementDiffusion T) (n c : nat) : T :=
  value zero (nd ← at1 (mesh.nodes e) n; Returns (coordinate nd c)).

(** The sum of [f k] over [k < n], accumulated from [0.0] in the order of
    the loop. *)
Definition sum_below (n : nat) (f : nat -> T) : T :=
  foldl (fun acc k => acc + f k) zero (seq 0 n).

(** The Jacobian entry of the specification (4.3):
    [J[i][j] = sum over n of dshapes(n, i, gp) * nodes[n].coordinate(j)]. *)
Definition jacobian_sum (e : ElementDiffusion T) (i j gp : nat) : T :=
  sum_below (length (mesh.nodes e)) (fun n => dsh_at n i gp * coordinate_at e n j).

(** A local [jac] whose four entries hold the sum of [dsh[n][0][gp] *
    nodes[n].x]. *)
Definition Quad2D_jac (e : ElementDiffusion T) (gp : nat) : fem.Matrix T :=
  let s := jacobian_sum e 0 0 gp in
  fem.set (fem.set (fem.set (fem.set uninit 0 0 s) 0 1 s) 1 0 s) 1 1 s.

(** What the loops of [computeInverseJacobian] leave in the local [jac]
    of either class. *)
Definition jac_of (el : Element T) (gp : nat) : fem.Matrix T :=
  match el with
  | segment2 e => fem.set uninit 0 0 (jacobian_sum e 0 0 gp)
  | quad2d e => Quad2D_jac e gp
  end.

(** Every read of the tables by an element of [n] nodes is in range. *)
Definition in_range (n : nat) : Prop :=
  forall gp i, gp < length (fem.weights Segment2) -> i < n ->
    (exists v, at3 (fem.dsh Segment2) i 0 gp = Returns v) /\
    (exists v, at2 (fem.sh Segment2) i gp = Returns v).

(** What one quadrature point adds to [Ae[n * i + j]] and to
    [Be[n * i + j]] (lines 78-80, 100). *)
Definition Ae_term (e : ElementDiffusion T) (ijac : fem.Matrix T) (det : T)
    (gp i j : nat) : T :=
  let dsh_i := dsh_at i 0 gp * fem.data ijac 0 0 in
  let dsh_j := dsh_at j 0 gp * fem.data ijac 0 0 in
  (d e * dsh_i * dsh_j + xs_a e * sh_at i gp * sh_at j gp) * w_at gp * det.

Definition Be_term (e : ElementDiffusion T) (det : T) (gp i j : nat) : T :=
  nu e * xs_f e * sh_at i gp * sh_at j gp * w_at gp * det.

(** A row-major [n] by [n] matrix with [tv i j] added to every entry. *)
Definition accumulated (n : nat) (tv : nat -> nat -> T) (M : list T) : list T :=
  imap (fun k old => old + tv (k / n)%nat (k mod n)%nat) M.

(** The same after the first [c] entries, in row-major order. *)
Definition accumulated_upto (n c : nat) (tv : nat -> nat -> T) (M : list T) : list T :=
  imap (fun k old =>
    if decide (k < c)%nat then old + tv (k / n)%nat (k mod n)%nat else old) M.

(** The two loops over [i] and [j] of [computeAe] and [computeBe]. *)
Definition accumulate (n : nat) (term : nat -> nat -> outcome T) (M : list T)
    : outcome (list T) :=
  for_range n (fun i M =>
    for_range n (fun j M =>
      t ← term i j;
      old ← at1 M (n * i + j);
      store M (n * i + j) (old + t)) M) M.

(** The reads and the product of lines 78-80, and of line 100. *)
Definition Ae_reads (e : ElementDiffusion T) (ijac : fem.Matrix T) (det : T)
    (gp i j : nat) : outcome T :=
  a ← at3 (fem.dsh Segment2) i 0 gp;
  let dsh_i := a * fem.data ijac 0 0 in
  b ← at3 (fem.dsh Segment2) j 0 gp;
  let dsh_j := b * fem.data ijac 0 0 in
  si ← at2 (fem.sh Segment2) i gp;
  sj ← at2 (fem.sh Segment2) j gp;
  w ← at1 (fem.weights Segment2) gp;
  Returns ((d e * dsh_i * dsh_j + xs_a e * si * sj) * w * det).

Definition Be_reads (e : ElementDiffusion T) (det : T) (gp i j : nat) : outcome T :=
  si ← at2 (fem.sh Segment2) i gp;
  sj ← at2 (fem.sh Segment2) j gp;
  w ← at1 (fem.weights Segment2) gp;
  Returns (nu e * xs_f e * si * sj * w * det).

(** [computeAe] and [computeBe] of either class, over its
    [computeInverseJacobian]. *)
Definition Ae_loops
    (cij : fem.Matrix T -> T -> nat -> outcome (Z * fem.Matrix T * T))
    (e : ElementDiffusion T) : outcome (list T) :=
  let n := length (mesh.nodes e) in
  '(Ae, _) ← for_range (length (fem.weights Segment2)) (fun gp '(Ae, det) =>
    '(_, ijac, det) ← cij uninit det gp;
    Ae ← accumulate n (Ae_reads e ijac det gp) Ae;
    Returns (Ae, det)) (replicate (n * n) zero, indet);
  Returns Ae.

Definition Be_loops
    (cij : fem.Matrix T -> T -> nat -> outcome (Z * fem.Matrix T * T))
    (e : ElementDiffusion T) : outcome (list T) :=
  let n := length (mesh.nodes e) in
  for_range (length (fem.weights Segment2)) (fun gp Be =>
    '(_, ijac, det) ← cij uninit indet gp;
    accumulate n (Be_reads e det gp) Be) (replicate (n * n) zero).

(** The body of the loop over the nodes in [computeInverseJacobian]:
    [jac.data[i][j] += dsh[n][dir][gp] * nodes[n].x]. *)
Definition add_node (e : ElementDiffusion T) (dir gp i j : nat)
    (n : nat) (jac : fem.Matrix T) : outcome (fem.Matrix T) :=
  a ← at3 (fem.dsh Segment2) n dir gp;
  nd ← at1 (mesh.nodes e) n;
  Returns (fem.set jac i j (fem.data jac i j + a * mesh.x nd)).

(** The reads of [dsh] by the loop over the nodes are in range. *)
Definition nodes_in_range (num_nodes dir gp : nat) : Prop :=
  forall n, n < num_nodes -> exists v, at3 (fem.dsh Segment2) n dir gp = Returns v.


End vocabulary.

(** Headers that differ from [F] in one respect: the [ijac] that [inverse]
    returns holds [q] in every entry of a 2 by 2 matrix but
    [ijac.data[0][0]]. *)
Definition scribble {T} (q : T) (F : Fem T) : Fem T := {|
  Segment2 := Segment2;
  inverse := fun DIM jac ijac det =>
    let '(st, m, dt) := inverse DIM jac ijac det in
    (st, fem.set (fem.set (fem.set m 0 1 q) 1 0 q) 1 1 q, dt);
  indet := indet
|}.

(** The headers [F] on a run where uninitialised storage holds [g]. *)
Definition with_indet {T} (g : T) (F : Fem T) : Fem T := {|
  Segment2 := Segment2;
  inverse := inverse;
  indet := g
|}.

(** [inverse], on a [Matrix<1>] and on a [Matrix<2>], assigns
    [inv.data[0][0]] and [det] on every call: what they hold afterwards is
    fixed by the entries of the matrix, those below [DIM], and not by what
    [inv] and [det] held. *)
Definition inverse_assigns {T} (F : Fem T) : Prop :=
  forall DIM jac jac' ijac ijac' det det',
    DIM = 1 \/ DIM = 2 ->
    (forall i j, i < DIM -> j < DIM -> fem.data jac i j = fem.data jac' i j) ->
    fem.data (inverse DIM jac ijac det).1.2 0 0 =
      fem.data (inverse DIM jac' ijac' det').1.2 0 0 /\
    (inverse DIM jac ijac det).2 = (inverse DIM jac' ijac' det').2.

(** [inverse] assigns [inv.data[0][0]] and [det] on the [jac] of every
    quadrature point of the element [el]: handed a matrix with the entries
    of that [jac], those below [DIM], it leaves there the same whatever
    [inv] and [det] held.  It accepts the element at every point. *)
Definition inverse_assigns_on {T} {Sc : Scalar T} (F : Fem T) (el : Element T) : Prop :=
  forall gp jac jac' ijac ijac' det det',
    gp < length (fem.weights Segment2) ->
    (forall i j, i < DIM el -> j < DIM el ->
       fem.data jac i j = fem.data (jac_of el gp) i j) ->
    (forall i j, i < DIM el -> j < DIM el ->
       fem.data jac' i j = fem.data (jac_of el gp) i j) ->
    fem.data (inverse (DIM el) jac ijac det).1.2 0 0 =
      fem.data (inverse (DIM el) jac' ijac' det').1.2 0 0 /\
    (inverse (DIM el) jac ijac det).2 = (inverse (DIM el) jac' ijac' det').2.

(** Two outcomes of the same kind, related by [Rel] where both return. *)
Definition outcome_rel {A B} (Rel : A -> B -> Prop) (o : outcome A) (o' : outcome B) : Prop :=
  match o, o' with
  | Returns a, Returns b => Rel a b
  | Raises err, Raises err' => err = err'
  | OutOfRange, OutOfRange => True
  | _, _ => False
  end.

(** Two objects of the same concrete class. *)
Definition same_class {T} (el el' : Element T) : Prop :=
  match el, el' with
  | segment2 _, segment2 _ | quad2d _, quad2d _ => True
  | _, _ => False
  end.

(** The tables of the linear element of two nodes on [[-1, 1]]: the
    derivatives of its two shape functions are [-1/2] and [1/2] at every
    quadrature point, and the values are there to be read. *)
Definition linear_segment {F : Fem R} : Prop :=
  forall gp, gp < length (fem.weights Segment2) ->
    at3 (fem.dsh Segment2) 0 0 gp = Returns (- (1 / 2))%R /\
    at3 (fem.dsh Segment2) 1 0 gp = Returns (1 / 2)%R /\
    (exists v, at2 (fem.sh Segment2) 0 gp = Returns v) /\
    (exists v, at2 (fem.sh Segment2) 1 gp = Returns v).

(** The rule integrates the constants on [[-1, 1]]: its weights sum to
    [2]. *)
Definition weights_sum {F : Fem R} : Prop :=
  sum_below (length (fem.weights Segment2)) w_at = 2%R.

(** The rule integrates the products of two shape functions on [[-1, 1]]:
    [2/3] for a function with itself, [1/3] for the two. *)
Definition mass_exact {F : Fem R} : Prop :=
  forall i j, i < 2 -> j < 2 ->
    sum_below (length (fem.weights Segment2))
      (fun gp => sh_at i gp * sh_at j gp * w_at gp)%R
    = if decide (i = j) then (2 / 3)%R else (1 / 3)%R.

(** [inverse] accepts the 1 by 1 matrix of entry [J]: it leaves the
    reciprocal in [inv.data[0][0]] and [J] in [det]. *)
Definition inverse_accepts {F : Fem R} (J : R) : Prop :=
  forall jac ijac det,
    fem.data jac 0 0 = J ->
    fem.data (inverse 1 jac ijac det).1.2 0 0 = (1 / J)%R /\
    (inverse 1 jac ijac det).2 = J.

(** The claim that a zero Jacobian determinant makes both calls abort:
    at a quadrature point where the [jac] of [computeInverseJacobian] has
    determinant zero, [computeAe] and [computeBe] raise
    [DegenerateGeometryError] for that point. *)
Definition aborts_where_degenerate {F : Fem R} (el : Element R) : Prop :=
  forall gp jac,
    gp < length (fem.weights Segment2) ->
    jacobian el gp = Returns jac -> determinant (DIM el) jac = 0%R ->
    (exists gp', computeAe el = Raises (DegenerateGeometryError gp')) /\
    (exists gp', computeBe el = Raises (DegenerateGeometryError gp')).

(** ** The matrices entry by entry *)

Section entries.
Context {T : Type} {Sc : Scalar T} {F : Fem T}.
Local Open Scope scalar_scope.

(** What [det] holds when [computeAe] calls [computeInverseJacobian] at
    the quadrature point [gp]: [det] is declared before the loop (line 68,
    line 132), so it holds what the call at the point before left there,
    and at the first point what an uninitialised [double] holds. *)
Fixpoint Ae_det_in (el : Element T) (gp : nat) : T :=
  match gp with
  | 0 => indet
  | S k => (inverse (DIM el) (jac_of el k) uninit (Ae_det_in el k)).2
  end.

(** What that call leaves in [ijac] and in [det]. *)
Definition Ae_ijac (el : Element T) (gp : nat) : fem.Matrix T :=
  (inverse (DIM el) (jac_of el gp) uninit (Ae_det_in el gp)).1.2.

Definition Ae_det (el : Element T) (gp : nat) : T :=
  (inverse (DIM el) (jac_of el gp) uninit (Ae_det_in el gp)).2.

(** The same in [computeBe], where [det] is declared inside the loop
    (line 95, line 159). *)
Definition Be_det (el : Element T) (gp : nat) : T :=
  (inverse (DIM el) (jac_of el gp) uninit indet).2.

(** The sums over the quadrature points that end in [Ae[n * i + j]] and
    in [Be[n * i + j]]. *)
Definition Ae_entry (el : Element T) (i j : nat) : T :=
  sum_below (length (fem.weights Segment2))
    (fun gp => Ae_term (fields el) (Ae_ijac el gp) (Ae_det el gp) gp i j).

Definition Be_entry (el : Element T) (i j : nat) : T :=
  sum_below (length (fem.weights Segment2))
    (fun gp => Be_term (fields el) (Be_det el gp) gp i j).

(** The row-major [n] by [n] matrix of entries [f i j]. *)
Definition matrix_of (n : nat) (f : nat -> nat -> T) : list T :=
  (fun k => f (k / n)%nat (k mod n)%nat) <$> seq 0 (n * n).

(** [M[k]], for [k] below the size of [M]. *)
Definition entry (M : list T) (k : nat) : T := default zero (M !! k).

(** An object of the same class with other fields. *)
Definition on_fields (f : ElementDiffusion T -> ElementDiffusion T) (el : Element T)
    : Element T :=
  match el with
  | segment2 e => segment2 (f e)
  | quad2d e => quad2d (f e)
  end.

(** The element with other material parameters. *)
Definition with_material (xs_a_ xs_f_ nu_ d_ : T) (e : ElementDiffusion T)
    : ElementDiffusion T :=
  {| base := base e; xs_a := xs_a_; xs_f := xs_f_; nu := nu_; d := d_ |}.

(** The element with every node moved by [t] along [x]. *)
Definition translate (t : T) (e : ElementDiffusion T) : ElementDiffusion T :=
  {| base := {| mesh.nodes :=
                  (fun nd => {| mesh.x := mesh.x nd + t;
                                mesh.y := mesh.y nd; mesh.z := mesh.z nd |})
                  <$> mesh.nodes e;
                mesh.nodeIndexes := mesh.nodeIndexes e |};
     xs_a := xs_a e; xs_f := xs_f e; nu := nu e; d := d e |}.

End entries.

(** The derivatives of the shape functions of an element of [n] nodes sum
    to zero at every quadrature point, as those of functions that sum to
    one do. *)
Definition derivatives_sum_to_zero {F : Fem R} (n : nat) : Prop :=
  forall gp, gp < length (fem.weights Segment2) ->
    sum_below n (fun k => dsh_at k 0 gp) = 0%R.

(** The shape functions of an element of [n] nodes sum to one at every
    quadrature point. *)
Definition shapes_sum_to_one {F : Fem R} (n : nat) : Prop :=
  forall gp, gp < length (fem.weights Segment2) ->
    sum_below n (fun k => sh_at k gp) = 1%R.

(** [inverse], on a [Matrix<2>], leaves the determinant of the matrix in
    [det], also where it reports a failure. *)
Definition inverse_writes_determinant {F : Fem R} : Prop :=
  forall jac ijac det, (inverse 2 jac ijac det).2 = determinant 2 jac.

(** [inverse] refuses the 1 by 1 matrix of entry [J]: it leaves [inv] as
    it was handed it, and [J] in [det]. *)
Definition inverse_refuses {F : Fem R} (J : R) : Prop :=
  forall jac ijac det,
    fem.data jac 0 0 = J ->
    (inverse 1 jac ijac det).1.2 = ijac /\ (inverse 1 jac ijac det).2 = J.

(** Headers that differ from [F] in one respect: the [ijac] that [inverse]
    returns is [h] of the one of [F]. *)
Definition with_ijac {T} (h : fem.Matrix T -> fem.Matrix T) (F : Fem T) : Fem T := {|
  Segment2 := Segment2;
  inverse := fun DIM jac ijac det =>
    let '(st, m, dt) := inverse DIM jac ijac det in (st, h m, dt);
  indet := indet
|}.

(** ** Elements the statements are tried on *)

Module example.
Local Open Scope R_scope.

Definition node (x y : R) : mesh.Node R := {| mesh.x := x; mesh.y := y; mesh.z := 0 |}.

(** Two nodes, from [(x0, y0)] to [(x1, y1)], global indexes [0] and [1]. *)
Definition two_nodes (x0 y0 x1 y1 xs_a_ xs_f_ nu_ d_ : R) : ElementDiffusion R := {|
  base := {| mesh.nodes := [ node x0 y0; node x1 y1 ]; mesh.nodeIndexes := [ 0%nat; 1%nat ] |};
  xs_a := xs_a_; xs_f := xs_f_; nu := nu_; d := d_
|}.

(** The segment from [x = 0] to [x = 1]. *)
Definition unit_segment : ElementDiffusion R := two_nodes 0 0 1 0 1 1 1 1.

(** A segment of length zero: both nodes at [x = 1]. *)
Definition coincident : ElementDiffusion R := two_nodes 1 0 1 0 1 1 1 1.

(** Two nodes whose [x] and [y] differ: [(0, 0)] and [(2, 4)]. *)
Definition skew : ElementDiffusion R := two_nodes 0 0 2 4 1 1 1 1.

(** Headers whose [inverse] has no test: it assigns the determinant and the
    reciprocal or the cofactor form, whatever the determinant. *)
Definition untested_headers (garbage : R) : Fem R := {|
  Segment2 := spec.Segment2_tables;
  inverse := fun DIM m inv det =>
    match DIM with
    | 1%nat => (0%Z, fem.set inv 0 0 (1 / determinant 1 m), determinant 1 m)
    | _ => (0%Z,
            fem.set (fem.set (fem.set (fem.set inv
              0 0 (fem.data m 1 1 / determinant 2 m))
              0 1 (- fem.data m 0 1 / determinant 2 m))
              1 0 (- fem.data m 1 0 / determinant 2 m))
              1 1 (fem.data m 0 0 / determinant 2 m),
            determinant 2 m)
    end;
  indet := garbage
|}.

(** Four nodes, the corners of the unit square. *)
Definition unit_square : ElementDiffusion R := {|
  base := {| mesh.nodes := [ node 0 0; node 1 0; node 1 1; node 0 1 ];
             mesh.nodeIndexes := [ 0%nat; 1%nat; 2%nat; 3%nat ] |};
  xs_a := 1; xs_f := 1; nu := 1; d := 1
|}.

End example.

(** * Properties *)

(** ** Outcomes and loops *)

Lemma Returns_bind {A B} (a : A) (f : A -> outcome B) : Returns a ≫= f = f a.
Proof. reflexivity. Qed.

Lemma bind_Returns {A B} (m : outcome A) (f : A -> outcome B) b :
  m ≫= f = Returns b -> exists a, m = Returns a /\ f a = Returns b.
Proof. destruct m as [a| |]; simpl; intros E; try discriminate. eauto. Qed.

Lemma bind_not_Raises {A B} (m : outcome A) (f : A -> outcome B) :
  (forall err, m <> Raises err) ->
  (forall a err, m = Returns a -> f a <> Raises err) ->
  forall err, m ≫= f <> Raises err.
Proof.
  intros Hm Hf err. destruct m as [a| |]; simpl.
  - by apply Hf.
  - by destruct (Hm err0).
  - discriminate.
Qed.

Lemma at1_Returns {A} (a : list A) i v : at1 a i = Returns v <-> a !! i = Some v.
Proof. unfold at1. destruct (a !! i); split; intros E; by inversion E. Qed.

Lemma at1_lt {A} (a : list A) i : i < length a -> exists v, at1 a i = Returns v.
Proof.
  intros Hi. destruct (lookup_lt_is_Some_2 a i Hi) as [v Hv].
  exists v. by apply at1_Returns.
Qed.

Lemma at1_not_Raises {A} (a : list A) i err : at1 a i <> Raises err.
Proof. unfold at1. by destruct (a !! i). Qed.

Lemma at2_not_Raises {A} (a : list (list A)) i j err : at2 a i j <> Raises err.
Proof.
  unfold at2. apply bind_not_Raises; intros; apply at1_not_Raises.
Qed.

Lemma at3_not_Raises {A} (a : list (list (list A))) n i gp err :
  at3 a n i gp <> Raises err.
Proof.
  unfold at3. apply bind_not_Raises; intros; [apply at1_not_Raises | apply at2_not_Raises].
Qed.

Lemma store_Returns {A} (a : list A) i v :
  i < length a -> store a i v = Returns (<[i := v]> a).
Proof. intros Hi. unfold store. by destruct (at1_lt a i Hi) as [w ->]. Qed.

Lemma store_not_Raises {A} (a : list A) i v err : store a i v <> Raises err.
Proof.
  unfold store. apply bind_not_Raises; [intros; apply at1_not_Raises | discriminate].
Qed.

Lemma for_range_0 {St} (body : nat -> St -> outcome St) s : for_range 0 body s = Returns s.
Proof. reflexivity. Qed.

Lemma for_range_S {St} n (body : nat -> St -> outcome St) s :
  for_range (S n) body s = for_range n body s ≫= body n.
Proof. unfold for_range. by rewrite seq_S, foldl_app. Qed.

(** The rule of the counted loop: an invariant that every iteration keeps,
    returning, holds of the state the loop returns. *)
Lemma for_range_returns {St} (I : nat -> St -> Prop) n (body : nat -> St -> outcome St) s :
  I 0 s ->
  (forall k t, k < n -> I k t -> exists t', body k t = Returns t' /\ I (S k) t') ->
  exists s', for_range n body s = Returns s' /\ I n s'.
Proof.
  intros H0 Hstep. induction n as [|n IH].
  - exists s. by rewrite for_range_0.
  - destruct IH as (t & Et & It); [intros; apply Hstep; [lia | done] |].
    destruct (Hstep n t) as (t' & Et' & It'); [lia | done |].
    exists t'. by rewrite for_range_S, Et.
Qed.

(** The same for partial correctness: where the loop returns, the invariant
    holds of what it returns. *)
Lemma for_range_invariant {St} (I : nat -> St -> Prop) n (body : nat -> St -> outcome St) s s' :
  I 0 s ->
  (forall k t t', k < n -> I k t -> body k t = Returns t' -> I (S k) t') ->
  for_range n body s = Returns s' -> I n s'.
Proof.
  intros H0 Hstep. revert s'. induction n as [|n IH]; intros s'.
  - rewrite for_range_0. by intros [= <-].
  - rewrite for_range_S. intros E.
    apply bind_Returns in E as (t & Et & Et').
    apply (Hstep n t); [lia | | done].
    apply IH; [intros; eapply Hstep; [lia | done..] | done].
Qed.

Lemma for_range_not_Raises {St} n (body : nat -> St -> outcome St) s :
  (forall k t err, k < n -> body k t <> Raises err) ->
  forall err, for_range n body s <> Raises err.
Proof.
  intros Hbody. induction n as [|n IH]; intros err.
  - by rewrite for_range_0.
  - rewrite for_range_S. apply bind_not_Raises.
    + apply IH. intros; apply Hbody; lia.
    + intros; apply Hbody; lia.
Qed.

Lemma for_range_ext {St} n (body body' : nat -> St -> outcome St) s :
  (forall k t, k < n -> body k t = body' k t) ->
  for_range n body s = for_range n body' s.
Proof.
  intros Hbody. induction n as [|n IH].
  - reflexivity.
  - rewrite !for_range_S, IH by (intros; apply Hbody; lia).
    destruct (for_range n body' s); simpl; [apply Hbody; lia | done..].
Qed.

(** ** Matrices *)

Lemma Matrix_ext {T} (m m' : fem.Matrix T) :
  (forall i j, fem.data m i j = fem.data m' i j) -> m = m'.
Proof.
  destruct m as [f], m' as [g]; simpl; intros E. f_equal.
  extensionality i. extensionality j. apply E.
Qed.

Lemma data_set {T} (m : fem.Matrix T) i j v i' j' :
  fem.data (fem.set m i j v) i' j' =
  if decide (i' = i /\ j' = j) then v else fem.data m i' j'.
Proof. reflexivity. Qed.

Lemma data_set_eq {T} (m : fem.Matrix T) i j v : fem.data (fem.set m i j v) i j = v.
Proof. rewrite data_set. by rewrite decide_True. Qed.

Lemma set_set {T} (m : fem.Matrix T) i j v w :
  fem.set (fem.set m i j v) i j w = fem.set m i j w.
Proof.
  apply Matrix_ext; intros i' j'. rewrite !data_set. by case_decide.
Qed.

(** ** Row-major accumulation *)

Lemma flat_index_div n i j : j < n -> (n * i + j) / n = i.
Proof. intros Hj. symmetry. by apply (Nat.div_unique _ _ _ j). Qed.

Lemma flat_index_mod n i j : j < n -> (n * i + j) mod n = j.
Proof. intros Hj. symmetry. by apply (Nat.mod_unique _ _ i). Qed.

Lemma flat_index_lt n i j : i < n -> j < n -> n * i + j < n * n.
Proof. nia. Qed.

Section accumulation.
Context {T : Type} {Sc : Scalar T}.
Implicit Types (M : list T) (tv : nat -> nat -> T).

Lemma length_accumulated n tv M : length (accumulated n tv M) = length M.
Proof. apply length_imap. Qed.

Lemma length_accumulated_upto n c tv M : length (accumulated_upto n c tv M) = length M.
Proof. apply length_imap. Qed.

Lemma accumulated_upto_0 n tv M : accumulated_upto n 0 tv M = M.
Proof.
  apply list_eq; intros k. unfold accumulated_upto. rewrite list_lookup_imap.
  destruct (M !! k); simpl; [|done]. repeat case_decide; (done || lia).
Qed.

Lemma accumulated_upto_all n c tv M :
  length M <= c -> accumulated_upto n c tv M = accumulated n tv M.
Proof.
  intros Hc. apply list_eq; intros k.
  unfold accumulated_upto, accumulated. rewrite !list_lookup_imap.
  destruct (M !! k) eqn:E; simpl; [|done].
  apply lookup_lt_Some in E. repeat case_decide; (done || lia).
Qed.


(** One pass of the body of the inner loop, at the flat index [c]. *)
Lemma cell_returns n c tv M (t : T) :
  c < length M -> t = tv (c / n) (c mod n) ->
  (old ← at1 (accumulated_upto n c tv M) c;
   store (accumulated_upto n c tv M) c (add old t))
  = Returns (accumulated_upto n (S c) tv M).
Proof.
  intros Hc ->.
  destruct (lookup_lt_is_Some_2 M c Hc) as [old Hold].
  assert (accumulated_upto n c tv M !! c = Some old) as E.
  { unfold accumulated_upto. rewrite list_lookup_imap, Hold. simpl.
    repeat case_decide; (done || lia). }
  apply at1_Returns in E as E'. rewrite E'. simpl.
  rewrite store_Returns by (by rewrite length_accumulated_upto).
  f_equal. apply list_eq; intros k.
  unfold accumulated_upto.
  destruct (decide (k = c)) as [->|Hk].
  - rewrite list_lookup_insert_eq by (by rewrite length_imap).
    rewrite list_lookup_imap, Hold. simpl. repeat case_decide; (done || lia).
  - rewrite list_lookup_insert_ne by done.
    rewrite !list_lookup_imap. destruct (M !! k); simpl; [|done].
    repeat case_decide; (done || lia).
Qed.

(** The two loops add [tv i j] to every entry, provided every term is
    read in range. *)
Lemma accumulate_returns n (term : nat -> nat -> outcome T) tv M :
  length M = n * n ->
  (forall i j, i < n -> j < n -> term i j = Returns (tv i j)) ->
  accumulate n term M = Returns (accumulated n tv M).
Proof.
  intros HM Hterm. unfold accumulate.
  destruct (for_range_returns (fun i t => t = accumulated_upto n (n * i) tv M) n
    (fun i M => for_range n (fun j M =>
       t ← term i j; old ← at1 M (n * i + j); store M (n * i + j) (add old t)) M) M)
    as (M' & -> & ->).
  - by rewrite Nat.mul_0_r, accumulated_upto_0.
  - intros i t Hi ->.
    destruct (for_range_returns
      (fun j t => t = accumulated_upto n (n * i + j) tv M) n
      (fun j M => t ← term i j; old ← at1 M (n * i + j); store M (n * i + j) (add old t))
      (accumulated_upto n (n * i) tv M)) as (M' & -> & ->).
    + by rewrite Nat.add_0_r.
    + intros j t Hj ->. rewrite (Hterm i j) by done. simpl.
      erewrite cell_returns.
      * eexists; split; [done|]. f_equal. lia.
      * rewrite HM. by apply flat_index_lt.
      * by rewrite flat_index_div, flat_index_mod.
    + eexists; split; [done|]. f_equal. lia.
  - f_equal. apply accumulated_upto_all. lia.
Qed.

(** Where the two loops return, every term was read in range, and they
    added it. *)
Lemma accumulate_inv n (term : nat -> nat -> outcome T) M M' :
  length M = n * n ->
  accumulate n term M = Returns M' ->
  (forall i j, i < n -> j < n -> exists t, term i j = Returns t) /\
  M' = accumulated n (fun i j => value zero (term i j)) M.
Proof.
  intros HM E. set (tv := fun i j => value zero (term i j)).
  cut ((forall i j, i < n -> j < n -> exists t, term i j = Returns t) /\
       M' = accumulated_upto n (n * n) tv M).
  { intros [? ->]. split; [done|]. apply accumulated_upto_all. lia. }
  revert E. unfold accumulate.
  apply (for_range_invariant (fun i t =>
    (forall i' j, i' < i -> j < n -> exists t, term i' j = Returns t) /\
    t = accumulated_upto n (n * i) tv M)).
  - split; [intros; lia|]. by rewrite Nat.mul_0_r, accumulated_upto_0.
  - intros i t t' Hi [Hrows ->].
    intros E. cut ((forall j, j < n -> exists t, term i j = Returns t) /\
                   t' = accumulated_upto n (n * i + n) tv M).
    { intros [Hrow ->]. split.
      - intros i' j Hi' Hj. destruct (decide (i' = i)) as [->|]; [by apply Hrow|].
        apply Hrows; [lia|done].
      - f_equal. lia. }
    revert E.
    apply (for_range_invariant (fun j t =>
      (forall j', j' < j -> exists t, term i j' = Returns t) /\
      t = accumulated_upto n (n * i + j) tv M)).
    + split; [intros; lia|]. by rewrite Nat.add_0_r.
    + intros j t t'' Hj [Hcols ->] E.
      apply bind_Returns in E as (t0 & Et0 & E).
      rewrite cell_returns in E.
      * injection E as <-. split.
        -- intros j' Hj'. destruct (decide (j' = j)) as [->|]; [by eexists|].
           apply Hcols. lia.
        -- f_equal. lia.
      * rewrite HM. by apply flat_index_lt.
      * rewrite flat_index_div, flat_index_mod by done. unfold tv. by rewrite Et0.
Qed.

Lemma accumulated_2 tv (a b c d : T) :
  accumulated 2 tv [ a; b; c; d ] =
  [ add a (tv 0 0); add b (tv 0 1); add c (tv 1 0); add d (tv 1 1) ].
Proof. reflexivity. Qed.



End accumulation.

(** ** The Jacobian loops *)

Section jacobian.
Context {T : Type} {Sc : Scalar T} {F : Fem T}.

Lemma x_coordinate_at (e : ElementDiffusion T) n nd :
  at1 (mesh.nodes e) n = Returns nd -> coordinate_at e n 0 = mesh.x nd.
Proof. unfold coordinate_at. by intros ->. Qed.

Lemma dsh_at_Returns n i gp v :
  at3 (fem.dsh Segment2) n i gp = Returns v -> dsh_at n i gp = v.
Proof. unfold dsh_at. by intros ->. Qed.

(** The loop over the nodes leaves in [jac.data[i][j]] what it held plus
    the sum of the products, and touches no other entry. *)
Lemma node_loop_returns (e : ElementDiffusion T) dir gp i j jac :
  nodes_in_range (length (mesh.nodes e)) dir gp ->
  for_range (length (mesh.nodes e)) (add_node e dir gp i j) jac =
  Returns (fem.set jac i j
    (foldl (fun acc n => add acc (mul (dsh_at n dir gp) (coordinate_at e n 0)))
           (fem.data jac i j) (seq 0 (length (mesh.nodes e))))).
Proof.
  intros Hin. generalize (Nat.le_refl (length (mesh.nodes e))).
  generalize (length (mesh.nodes e)) at 1 3 4 as m.
  induction m as [|m IH]; intros Hm.
  - rewrite for_range_0. f_equal. apply Matrix_ext; intros i' j'.
    rewrite data_set. by case_decide as E; [destruct E as [-> ->]|].
  - rewrite for_range_S, IH, Returns_bind by lia.
    destruct (Hin m) as [a Ea]; [lia|].
    destruct (at1_lt (mesh.nodes e) m) as [nd End]; [lia|].
    unfold add_node. rewrite Ea, Returns_bind, End, Returns_bind.
    rewrite data_set_eq, set_set, seq_S, foldl_app. cbn [foldl Nat.add].
    by rewrite (dsh_at_Returns _ _ _ _ Ea), (x_coordinate_at _ _ _ End).
Qed.

Lemma node_loop_inv (e : ElementDiffusion T) dir gp i j jac jac' :
  for_range (length (mesh.nodes e)) (add_node e dir gp i j) jac = Returns jac' ->
  nodes_in_range (length (mesh.nodes e)) dir gp.
Proof.
  generalize (length (mesh.nodes e)) as m. intros m. revert jac'.
  induction m as [|m IH]; intros jac' E n Hn; [lia|].
  rewrite for_range_S in E. apply bind_Returns in E as (jac'' & E & E').
  destruct (decide (n = m)) as [->|]; [|eapply IH; [done|lia]].
  unfold add_node in E'. apply bind_Returns in E' as (a & Ea & _). eauto.
Qed.

(** Unrolls the loops over the constant [DIM] and names the loop over
    the nodes. *)
Ltac unroll_jacobian e gp :=
  repeat first
    [ rewrite for_range_S | rewrite for_range_0 | rewrite Returns_bind
    | progress cbv beta
    | progress fold (add_node e 0 gp 0 0) | progress fold (add_node e 0 gp 0 1)
    | progress fold (add_node e 0 gp 1 0) | progress fold (add_node e 0 gp 1 1)
    | rewrite node_loop_returns by done
    | rewrite data_set_eq | rewrite set_set ].

Lemma ElementSegment2_jacobian_returns (e : ElementDiffusion T) gp :
  nodes_in_range (length (mesh.nodes e)) 0 gp ->
  ElementSegment2.jacobian e gp = Returns (fem.set uninit 0 0 (jacobian_sum e 0 0 gp)).
Proof.
  intros Hin. unfold ElementSegment2.jacobian. by unroll_jacobian e gp.
Qed.

Lemma ElementSegment2_jacobian_inv (e : ElementDiffusion T) gp jac :
  ElementSegment2.jacobian e gp = Returns jac ->
  nodes_in_range (length (mesh.nodes e)) 0 gp.
Proof.
  unfold ElementSegment2.jacobian. unroll_jacobian e gp.
  apply node_loop_inv.
Qed.

Lemma Quad2D_jacobian_returns (e : ElementDiffusion T) gp :
  nodes_in_range (length (mesh.nodes e)) 0 gp ->
  Quad2D.jacobian e gp = Returns (Quad2D_jac e gp).
Proof.
  intros Hin. unfold Quad2D.jacobian, Quad2D_jac. by unroll_jacobian e gp.
Qed.

Lemma Quad2D_jac_entry (e : ElementDiffusion T) gp i j :
  i < 2 -> j < 2 -> fem.data (Quad2D_jac e gp) i j = jacobian_sum e 0 0 gp.
Proof.
  intros Hi Hj. unfold Quad2D_jac. cbv zeta. rewrite !data_set.
  repeat case_decide; try done.
  destruct i as [|[|i]], j as [|[|j]]; try lia; naive_solver.
Qed.

Lemma Quad2D_jacobian_inv (e : ElementDiffusion T) gp jac :
  Quad2D.jacobian e gp = Returns jac ->
  nodes_in_range (length (mesh.nodes e)) 0 gp.
Proof.
  unfold Quad2D.jacobian. unroll_jacobian e gp.
  intros E. repeat (apply bind_Returns in E as (? & E & _)).
  revert E. apply node_loop_inv.
Qed.

End jacobian.

(** ** The loops of [computeAe] and [computeBe] *)

Section loops.
Context {T : Type} {Sc : Scalar T} {F : Fem T}.

Ltac split_reads :=
  repeat match goal with
  | |- context [at3 ?a ?n ?i ?gp ≫= _] => destruct (at3 a n i gp); simpl; try done
  | |- context [at2 ?a ?i ?gp ≫= _] => destruct (at2 a i gp); simpl; try done
  | |- context [at1 (fem.weights ?s) ?gp ≫= _] =>
      destruct (at1 (fem.weights s) gp); simpl; try done
  end.

Lemma Ae_loops_eq cij cij' (e : ElementDiffusion T) :
  (forall ijac det gp, cij ijac det gp = cij' ijac det gp) ->
  ('(Ae, _) ← for_range (length (fem.weights Segment2)) (fun gp '(Ae, det) =>
    '(_, ijac, det) ← cij uninit det gp;
    Ae ← for_range (length (mesh.nodes e)) (fun i Ae =>
      for_range (length (mesh.nodes e)) (fun j Ae =>
        a ← at3 (fem.dsh Segment2) i 0 gp;
        b ← at3 (fem.dsh Segment2) j 0 gp;
        si ← at2 (fem.sh Segment2) i gp;
        sj ← at2 (fem.sh Segment2) j gp;
        w ← at1 (fem.weights Segment2) gp;
        old ← at1 Ae (length (mesh.nodes e) * i + j);
        store Ae (length (mesh.nodes e) * i + j)
          (add old (mul (mul (add
             (mul (mul (d e) (mul a (fem.data ijac 0 0))) (mul b (fem.data ijac 0 0)))
             (mul (mul (xs_a e) si) sj)) w) det))) Ae) Ae;
    Returns (Ae, det))
    (replicate (length (mesh.nodes e) * length (mesh.nodes e)) zero, indet);
   Returns Ae) = Ae_loops cij' e.
Proof.
  intros Hcij. unfold Ae_loops. f_equal.
  apply for_range_ext; intros gp [Ae det] _. rewrite Hcij.
  destruct (cij' uninit det gp) as [[[st ijac] det']| |]; simpl; [|done..].
  f_equal. unfold accumulate.
  apply for_range_ext; intros i M _. apply for_range_ext; intros j M' _.
  unfold Ae_reads. split_reads.
Qed.

Lemma Be_loops_eq cij cij' (e : ElementDiffusion T) :
  (forall ijac det gp, cij ijac det gp = cij' ijac det gp) ->
  for_range (length (fem.weights Segment2)) (fun gp Be =>
    '(_, ijac, det) ← cij uninit indet gp;
    for_range (length (mesh.nodes e)) (fun i Be =>
      for_range (length (mesh.nodes e)) (fun j Be =>
        si ← at2 (fem.sh Segment2) i gp;
        sj ← at2 (fem.sh Segment2) j gp;
        w ← at1 (fem.weights Segment2) gp;
        old ← at1 Be (length (mesh.nodes e) * i + j);
        store Be (length (mesh.nodes e) * i + j)
          (add old (mul (mul (mul (mul (mul (nu e) (xs_f e)) si) sj) w) det))) Be) Be)
    (replicate (length (mesh.nodes e) * length (mesh.nodes e)) zero)
  = Be_loops cij' e.
Proof.
  intros Hcij. unfold Be_loops.
  apply for_range_ext; intros gp Be _. rewrite Hcij.
  destruct (cij' uninit indet gp) as [[[st ijac] det']| |]; simpl; [|done..].
  unfold accumulate.
  apply for_range_ext; intros i M _. apply for_range_ext; intros j M' _.
  unfold Be_reads. split_reads.
Qed.

Lemma ElementSegment2_computeAe_loops (e : ElementDiffusion T) :
  ElementSegment2.computeAe e = Ae_loops (ElementSegment2.computeInverseJacobian e) e.
Proof. by apply Ae_loops_eq. Qed.

Lemma Quad2D_computeAe_loops (e : ElementDiffusion T) :
  Quad2D.computeAe e = Ae_loops (Quad2D.computeInverseJacobian e) e.
Proof. by apply Ae_loops_eq. Qed.

Lemma ElementSegment2_computeBe_loops (e : ElementDiffusion T) :
  ElementSegment2.computeBe e = Be_loops (ElementSegment2.computeInverseJacobian e) e.
Proof. by apply Be_loops_eq. Qed.

Lemma Quad2D_computeBe_loops (e : ElementDiffusion T) :
  Quad2D.computeBe e = Be_loops (Quad2D.computeInverseJacobian e) e.
Proof. by apply Be_loops_eq. Qed.

End loops.

(** ** The reads of one term *)

Section reads.
Context {T : Type} {Sc : Scalar T} {F : Fem T}.

Lemma sh_at_Returns i gp v : at2 (fem.sh Segment2) i gp = Returns v -> sh_at i gp = v.
Proof. unfold sh_at. by intros ->. Qed.

Lemma w_at_Returns gp v : at1 (fem.weights Segment2) gp = Returns v -> w_at gp = v.
Proof. unfold w_at. by intros ->. Qed.

Lemma Ae_reads_returns n (e : ElementDiffusion T) ijac det gp i j :
  in_range n -> gp < length (fem.weights Segment2) -> i < n -> j < n ->
  Ae_reads e ijac det gp i j = Returns (Ae_term e ijac det gp i j).
Proof.
  intros Hin Hgp Hi Hj.
  destruct (Hin gp i Hgp Hi) as [[a Ea] [si Esi]].
  destruct (Hin gp j Hgp Hj) as [[b Eb] [sj Esj]].
  destruct (at1_lt _ _ Hgp) as [w Ew].
  unfold Ae_reads, Ae_term.
  rewrite Ea, Eb, Esi, Esj, Ew, !Returns_bind.
  by rewrite (dsh_at_Returns _ _ _ _ Ea), (dsh_at_Returns _ _ _ _ Eb),
    (sh_at_Returns _ _ _ Esi), (sh_at_Returns _ _ _ Esj), (w_at_Returns _ _ Ew).
Qed.

Lemma Be_reads_returns n (e : ElementDiffusion T) det gp i j :
  in_range n -> gp < length (fem.weights Segment2) -> i < n -> j < n ->
  Be_reads e det gp i j = Returns (Be_term e det gp i j).
Proof.
  intros Hin Hgp Hi Hj.
  destruct (Hin gp i Hgp Hi) as [_ [si Esi]].
  destruct (Hin gp j Hgp Hj) as [_ [sj Esj]].
  destruct (at1_lt _ _ Hgp) as [w Ew].
  unfold Be_reads, Be_term.
  rewrite Esi, Esj, Ew, !Returns_bind.
  by rewrite (sh_at_Returns _ _ _ Esi), (sh_at_Returns _ _ _ Esj), (w_at_Returns _ _ Ew).
Qed.

Lemma Ae_reads_not_Raises (e : ElementDiffusion T) ijac det gp i j err :
  Ae_reads e ijac det gp i j <> Raises err.
Proof.
  unfold Ae_reads.
  repeat (apply bind_not_Raises;
    [intros; first [apply at3_not_Raises | apply at2_not_Raises | apply at1_not_Raises]
    | intros ? ? _]).
  discriminate.
Qed.

Lemma Be_reads_not_Raises (e : ElementDiffusion T) det gp i j err :
  Be_reads e det gp i j <> Raises err.
Proof.
  unfold Be_reads.
  repeat (apply bind_not_Raises;
    [intros; first [apply at2_not_Raises | apply at1_not_Raises] | intros ? ? _]).
  discriminate.
Qed.

Lemma accumulate_not_Raises n (term : nat -> nat -> outcome T) M :
  (forall i j err, term i j <> Raises err) ->
  forall err, accumulate n term M <> Raises err.
Proof.
  intros Hterm. unfold accumulate.
  apply for_range_not_Raises; intros i M' err _.
  apply for_range_not_Raises; intros j M'' err' _.
  apply bind_not_Raises; [done|]. intros t err'' _.
  apply bind_not_Raises; [intros; apply at1_not_Raises|].
  intros; apply store_not_Raises.
Qed.

Lemma length_accumulate n (term : nat -> nat -> outcome T) M M' :
  length M = n * n -> accumulate n term M = Returns M' -> length M' = n * n.
Proof.
  intros HM E. destruct (accumulate_inv _ _ _ _ HM E) as [_ ->].
  by rewrite length_accumulated.
Qed.

End reads.

(** ** [computeInverseJacobian] *)

Section inverse_jacobian.
Context {T : Type} {Sc : Scalar T} {F : Fem T}.

Lemma in_range_nodes n gp :
  in_range n -> gp < length (fem.weights Segment2) -> nodes_in_range n 0 gp.
Proof. intros Hin Hgp k Hk. by destruct (Hin gp k Hgp Hk) as [? _]. Qed.

Lemma jacobian_returns (el : Element T) gp :
  nodes_in_range (length (mesh.nodes (fields el))) 0 gp ->
  jacobian el gp = Returns (jac_of el gp).
Proof.
  destruct el as [e|e]; simpl; intros Hin.
  - by apply ElementSegment2_jacobian_returns.
  - by apply Quad2D_jacobian_returns.
Qed.

Lemma jacobian_inv (el : Element T) gp jac :
  jacobian el gp = Returns jac ->
  nodes_in_range (length (mesh.nodes (fields el))) 0 gp /\ jac = jac_of el gp.
Proof.
  intros E. assert (nodes_in_range (length (mesh.nodes (fields el))) 0 gp) as Hin.
  { destruct el as [e|e]; simpl in *.
    - by eapply ElementSegment2_jacobian_inv.
    - by eapply Quad2D_jacobian_inv. }
  split; [done|]. rewrite (jacobian_returns _ _ Hin) in E. by injection E.
Qed.

Lemma add_node_not_Raises (e : ElementDiffusion T) dir gp i j n jac err :
  add_node e dir gp i j n jac <> Raises err.
Proof.
  unfold add_node.
  apply bind_not_Raises; [intros; apply at3_not_Raises|]. intros a err' _.
  apply bind_not_Raises; [intros; apply at1_not_Raises|]. discriminate.
Qed.

Lemma jacobian_not_Raises (el : Element T) gp err : jacobian el gp <> Raises err.
Proof.
  destruct el as [e|e]; simpl.
  - unfold ElementSegment2.jacobian.
    apply for_range_not_Raises; intros i ? ? _.
    apply for_range_not_Raises; intros j ? ? _.
    apply for_range_not_Raises; intros; apply (add_node_not_Raises e i gp i j).
  - unfold Quad2D.jacobian.
    apply for_range_not_Raises; intros i ? ? _.
    apply for_range_not_Raises; intros j ? ? _.
    apply for_range_not_Raises; intros; apply (add_node_not_Raises e 0 gp i j).
Qed.

(** [computeInverseJacobian] is the Jacobian loops, then [inverse] on the
    result, whose status it replaces by [0]. *)
Lemma computeInverseJacobian_unfold (el : Element T) ijac det gp :
  computeInverseJacobian el ijac det gp =
  jac ← jacobian el gp;
  Returns (0%Z, (inverse (DIM el) jac ijac det).1.2, (inverse (DIM el) jac ijac det).2).
Proof.
  destruct el as [e|e]; simpl;
    unfold ElementSegment2.computeInverseJacobian, Quad2D.computeInverseJacobian.
  - destruct (ElementSegment2.jacobian e gp) as [jac| |]; simpl; try done.
    by destruct (inverse 1 jac ijac det) as [[st m] dt].
  - destruct (Quad2D.jacobian e gp) as [jac| |]; simpl; try done.
    by destruct (inverse 2 jac ijac det) as [[st m] dt].
Qed.

Lemma computeInverseJacobian_returns (el : Element T) ijac det gp :
  nodes_in_range (length (mesh.nodes (fields el))) 0 gp ->
  computeInverseJacobian el ijac det gp =
  Returns (0%Z, (inverse (DIM el) (jac_of el gp) ijac det).1.2,
                (inverse (DIM el) (jac_of el gp) ijac det).2).
Proof.
  intros Hin. by rewrite computeInverseJacobian_unfold, jacobian_returns.
Qed.

Lemma computeInverseJacobian_not_Raises (el : Element T) ijac det gp err :
  computeInverseJacobian el ijac det gp <> Raises err.
Proof.
  rewrite computeInverseJacobian_unfold.
  apply bind_not_Raises; [intros; apply jacobian_not_Raises | discriminate].
Qed.

End inverse_jacobian.

(** ** The matrices of either class *)

Section matrices.
Context {T : Type} {Sc : Scalar T} {F : Fem T}.
Implicit Types (el : Element T) (e : ElementDiffusion T).

Lemma computeAe_loops el :
  computeAe el = Ae_loops (computeInverseJacobian el) (fields el).
Proof.
  destruct el as [e|e]; simpl;
    [apply ElementSegment2_computeAe_loops | apply Quad2D_computeAe_loops].
Qed.

Lemma computeBe_loops el :
  computeBe el = Be_loops (computeInverseJacobian el) (fields el).
Proof.
  destruct el as [e|e]; simpl;
    [apply ElementSegment2_computeBe_loops | apply Quad2D_computeBe_loops].
Qed.

Section over_cij.
Variable cij : fem.Matrix T -> T -> nat -> outcome (Z * fem.Matrix T * T).

Lemma Ae_loops_not_Raises e :
  (forall ijac det gp err, cij ijac det gp <> Raises err) ->
  forall err, Ae_loops cij e <> Raises err.
Proof.
  intros Hcij. unfold Ae_loops.
  apply bind_not_Raises.
  - apply for_range_not_Raises; intros gp [Ae det] err _.
    apply bind_not_Raises; [done|]. intros [[st ijac] det'] err' _.
    apply bind_not_Raises; [|discriminate].
    apply accumulate_not_Raises; intros; apply Ae_reads_not_Raises.
  - by intros [Ae det].
Qed.

Lemma Be_loops_not_Raises e :
  (forall ijac det gp err, cij ijac det gp <> Raises err) ->
  forall err, Be_loops cij e <> Raises err.
Proof.
  intros Hcij. unfold Be_loops.
  apply for_range_not_Raises; intros gp Be err _.
  apply bind_not_Raises; [done|]. intros [[st ijac] det'] err' _.
  apply accumulate_not_Raises; intros; apply Be_reads_not_Raises.
Qed.

(** With every read in range the loops return a matrix of [n * n]
    entries. *)
Lemma Ae_loops_returns e :
  in_range (length (mesh.nodes e)) ->
  (forall ijac det gp, gp < length (fem.weights Segment2) ->
     exists r, cij ijac det gp = Returns r) ->
  exists Ae, Ae_loops cij e = Returns Ae /\
             length Ae = length (mesh.nodes e) * length (mesh.nodes e).
Proof.
  intros Hin Hcij. unfold Ae_loops.
  edestruct (for_range_returns
    (fun _ (s : list T * T) => length s.1 = length (mesh.nodes e) * length (mesh.nodes e)))
    as ([Ae det] & -> & HAe); [..|by exists Ae].
  - apply length_replicate.
  - intros gp [Ae det] Hgp HAe. simpl in HAe.
    destruct (Hcij uninit det gp Hgp) as [[[st ijac] det'] ->]. rewrite Returns_bind.
    erewrite accumulate_returns;
      [|done|intros; by eapply Ae_reads_returns].
    eexists; split; [done|]. simpl. by rewrite length_accumulated.
Qed.

Lemma Be_loops_returns e :
  in_range (length (mesh.nodes e)) ->
  (forall ijac det gp, gp < length (fem.weights Segment2) ->
     exists r, cij ijac det gp = Returns r) ->
  exists Be, Be_loops cij e = Returns Be /\
             length Be = length (mesh.nodes e) * length (mesh.nodes e).
Proof.
  intros Hin Hcij. unfold Be_loops.
  apply (for_range_returns
    (fun _ (s : list T) => length s = length (mesh.nodes e) * length (mesh.nodes e))).
  - apply length_replicate.
  - intros gp Be Hgp HBe.
    destruct (Hcij uninit indet gp Hgp) as [[[st ijac] det'] ->]. rewrite Returns_bind.
    erewrite accumulate_returns;
      [|done|intros; by eapply Be_reads_returns].
    eexists; split; [done|]. by rewrite length_accumulated.
Qed.



End over_cij.

End matrices.

(** ** The tables and the inverse of the specification *)

Section spec_headers.
Local Open Scope R_scope.
Variables tol garbage : R.

Lemma spec_in_range : in_range (F := spec.headers tol garbage) 2.
Proof.
  intros gp i Hgp Hi. simpl in Hgp.
  destruct gp as [|[|gp]], i as [|[|i]]; try lia; split; eexists; reflexivity.
Qed.

Lemma spec_nodes_in_range gp :
  (gp < 2)%nat -> nodes_in_range (F := spec.headers tol garbage) 2 0 gp.
Proof. intros Hgp. by apply in_range_nodes; [apply spec_in_range|]. Qed.

Lemma xi_sqr : spec.xi * spec.xi = 1 / 3.
Proof.
  unfold spec.xi. rewrite <- Rinv_mult, sqrt_sqrt by lra. lra.
Qed.

End spec_headers.

(** ** Exact arithmetic *)

Section exact.
Context {F : Fem R}.
Local Open Scope R_scope.
Implicit Types (el : Element R) (e : ElementDiffusion R).



End exact.



(** ** The Jacobian of [Quad2D] *)

(** C4: for every [Quad2D] element and every quadrature point, the four
    entries of the [jac] that the loops of [computeInverseJacobian] build
    are the same sum of [dsh[n][0][gp] * nodes[n].x], which depends on
    neither [i] nor [j]; so the determinant of [jac] is zero, in exact
    arithmetic, before [inverse] is called.  The loops do build it when
    their reads of [dsh] are in range. *)
Theorem Quad2D_jacobian_singular (F : Fem R) (e : ElementDiffusion R) (gp : nat) :
  (forall jac, Quad2D.jacobian e gp = Returns jac ->
     (forall i j, i < 2 -> j < 2 -> fem.data jac i j = jacobian_sum e 0 0 gp) /\
     determinant 2 jac = 0%R) /\
  (nodes_in_range (length (mesh.nodes e)) 0 gp ->
   exists jac, Quad2D.jacobian e gp = Returns jac).
Proof.
  split.
  - intros jac E. destruct (jacobian_inv (quad2d e) gp jac E) as [_ ->].
    unfold jac_of. split; [apply Quad2D_jac_entry|].
    unfold determinant. rewrite !Quad2D_jac_entry by lia. ring.
  - intros Hin. exists (Quad2D_jac e gp). by apply Quad2D_jacobian_returns.
Qed.

Lemma Quad2D_jacobian_singular_witness :
  nodes_in_range (F := spec.headers 0 0) 2 0 0 /\
  exists jac,
    Quad2D.jacobian (F := spec.headers 0 0) example.skew 0 = Returns jac /\
    (forall i j, i < 2 -> j < 2 ->
       fem.data jac i j = jacobian_sum (F := spec.headers 0 0) example.skew 0 0 0) /\
    determinant 2 jac = 0%R.
Proof.
  split; [apply spec_nodes_in_range; lia|].
  destruct (Quad2D_jacobian_singular (spec.headers 0 0) example.skew 0) as [Hjac Hret].
  destruct Hret as [jac E]; [apply spec_nodes_in_range; lia|].
  exists jac. split; [done|]. by apply Hjac.
Defined.

(** C1, at the two nodes [(0, 0)] and [(2, 4)] with the tables of the
    specification: the entry [jac.data[0][1]] that [Quad2D] builds is [1],
    the sum of [dsh[n][0][gp] * nodes[n].x], where the formula of the claim,
    the sum of [dshapes(n, 0, gp)] times the coordinate [1] of node [n],
    gives [2]. *)
Lemma Quad2D_jacobian_skew :
  exists jac,
    Quad2D.jacobian (F := spec.headers 0 0) example.skew 0 = Returns jac /\
    fem.data jac 0 1 = 1%R /\
    jacobian_sum (F := spec.headers 0 0) example.skew 0 1 0 = 2%R.
Proof.
  exists (Quad2D_jac (F := spec.headers 0 0) example.skew 0).
  split; [apply Quad2D_jacobian_returns, spec_nodes_in_range; lia|].
  split.
  - rewrite Quad2D_jac_entry by lia.
    unfold jacobian_sum, sum_below, dsh_at, coordinate_at. simpl. lra.
  - unfold jacobian_sum, sum_below, dsh_at, coordinate_at. simpl. lra.
Qed.

(** The Jacobian of [ElementSegment2] is the one of the specification: its
    one entry is the sum of [dshapes(n, 0, gp)] times the coordinate [0] of
    node [n]. *)
Theorem ElementSegment2_jacobian_entry {T} {Sc : Scalar T} (F : Fem T)
    (e : ElementDiffusion T) (gp : nat) (jac : fem.Matrix T) :
  ElementSegment2.jacobian e gp = Returns jac ->
  fem.data jac 0 0 = jacobian_sum e 0 0 gp.
Proof.
  intros E. destruct (jacobian_inv (segment2 e) gp jac E) as [_ ->].
  unfold jac_of. by rewrite data_set_eq.
Qed.

Lemma ElementSegment2_jacobian_entry_witness :
  ElementSegment2.jacobian (F := spec.headers 0 0) example.unit_segment 0 =
    Returns (jac_of (F := spec.headers 0 0) (segment2 example.unit_segment) 0) /\
  fem.data (jac_of (F := spec.headers 0 0) (segment2 example.unit_segment) 0) 0 0 =
    jacobian_sum (F := spec.headers 0 0) example.unit_segment 0 0 0.
Proof.
  assert (ElementSegment2.jacobian (F := spec.headers 0 0) example.unit_segment 0 =
    Returns (jac_of (F := spec.headers 0 0) (segment2 example.unit_segment) 0)) as E.
  { apply (jacobian_returns (F := spec.headers 0 0) (segment2 example.unit_segment)).
    apply spec_nodes_in_range; lia. }
  split; [exact E|].
  exact (ElementSegment2_jacobian_entry (spec.headers 0 0) example.unit_segment 0 _ E).
Defined.

(** [Quad2D] reads the tables of [Segment2], which have two nodes: on four
    nodes, the corners of the unit square, its loops index [dsh] at the
    node [2], outside the table. *)
Example Quad2D_four_nodes_out_of_range :
  Quad2D.jacobian (F := spec.headers 0 0) example.unit_square 0 = OutOfRange /\
  computeAe (F := spec.headers 0 0) (quad2d example.unit_square) = OutOfRange /\
  computeBe (F := spec.headers 0 0) (quad2d example.unit_square) = OutOfRange.
Proof. repeat split; reflexivity. Qed.

(** ** The physical derivative in [Quad2D::computeAe] *)

(** C3: [Quad2D::computeAe] reads of the inverse Jacobian the entry
    [ijac.data[0][0]] alone: whatever [inverse] leaves in [ijac.data[0][1]],
    [ijac.data[1][0]] and [ijac.data[1][1]], the matrix is the same.  The
    contraction of lines 142-143 has the term [k = 0] only. *)
Theorem Quad2D_computeAe_reads_ijac00_only {T} {Sc : Scalar T} (F : Fem T) (q : T)
    (e : ElementDiffusion T) :
  Quad2D.computeAe (F := scribble q F) e = Quad2D.computeAe (F := F) e.
Proof.
  rewrite (Quad2D_computeAe_loops (F := scribble q F)), (Quad2D_computeAe_loops (F := F)).
  unfold Ae_loops. f_equal.
  apply for_range_ext; intros gp [Ae det] _.
  unfold Quad2D.computeInverseJacobian.
  change (Quad2D.jacobian (F := scribble q F) e gp) with (Quad2D.jacobian (F := F) e gp).
  destruct (Quad2D.jacobian e gp) as [jac| |]; [|done..].
  rewrite !Returns_bind.
  change (uninit (F := scribble q F)) with (uninit (F := F)).
  change (inverse (Fem := scribble q F) 2 jac uninit det)
    with (let '(st, m, dt) := inverse (Fem := F) 2 jac uninit det in
          (st, fem.set (fem.set (fem.set m 0 1 q) 1 0 q) 1 1 q, dt)).
  destruct (inverse 2 jac uninit det) as [[st m] dt].
  rewrite !Returns_bind.
  (* [Ae_reads] takes [ijac.data[0][0]], which the three writes leave. *)
  reflexivity.
Qed.

(** ** Uninitialised storage *)

Lemma outcome_rel_bind {A B A' B'} (Rel : A -> A' -> Prop) (Rel' : B -> B' -> Prop)
    (m : outcome A) (m' : outcome A') (f : A -> outcome B) (f' : A' -> outcome B') :
  outcome_rel Rel m m' ->
  (forall a a', Rel a a' -> outcome_rel Rel' (f a) (f' a')) ->
  outcome_rel Rel' (m ≫= f) (m' ≫= f').
Proof. destruct m, m'; simpl; intros Hm Hf; by try apply Hf. Qed.

Lemma outcome_rel_eq {A} (o o' : outcome A) : outcome_rel eq o o' -> o = o'.
Proof. destruct o, o'; simpl; intros E; by try f_equal. Qed.

Lemma outcome_rel_refl {A} (o : outcome A) : outcome_rel eq o o.
Proof. by destruct o. Qed.

(** Two loops whose bodies keep their states related return related
    states. *)
Lemma for_range_rel {St St'} (Rel : St -> St' -> Prop) n
    (body : nat -> St -> outcome St) (body' : nat -> St' -> outcome St') s s' :
  Rel s s' ->
  (forall k t t', k < n -> Rel t t' -> outcome_rel Rel (body k t) (body' k t')) ->
  outcome_rel Rel (for_range n body s) (for_range n body' s').
Proof.
  intros Hs Hbody. induction n as [|n IH]; [done|].
  rewrite !for_range_S. eapply outcome_rel_bind.
  - apply IH. intros; apply Hbody; [lia|done].
  - intros; apply Hbody; [lia|done].
Qed.

Section uninitialised.
Context {T : Type} {Sc : Scalar T} (F : Fem T).
Hypothesis Hassigns : inverse_assigns F.
Variables g g' : T.

Lemma jac_of_with_indet (el : Element T) gp i j :
  i < DIM el -> j < DIM el ->
  fem.data (jac_of (F := with_indet g F) el gp) i j =
  fem.data (jac_of (F := with_indet g' F) el gp) i j.
Proof using Type.
  intros Hi Hj. destruct el as [e|e]; simpl in Hi, Hj.
  - unfold jac_of. rewrite !data_set. by rewrite !decide_True by lia.
  - unfold jac_of. by rewrite !Quad2D_jac_entry.
Qed.

(** [computeInverseJacobian] leaves the same [ijac.data[0][0]] and [det]
    on both runs. *)
Lemma computeInverseJacobian_with_indet (el : Element T) ijac ijac' det det' gp :
  outcome_rel (fun r r' => fem.data r.1.2 0 0 = fem.data r'.1.2 0 0 /\ r.2 = r'.2)
    (computeInverseJacobian (F := with_indet g F) el ijac det gp)
    (computeInverseJacobian (F := with_indet g' F) el ijac' det' gp).
Proof using Hassigns.
  destruct (jacobian (F := with_indet g F) el gp) as [jac| |] eqn:E.
  - apply jacobian_inv in E as [Hin _].
    rewrite (computeInverseJacobian_returns (F := with_indet g F)) by done.
    rewrite (computeInverseJacobian_returns (F := with_indet g' F)) by done.
    apply (Hassigns (DIM el)); [destruct el; simpl; lia|].
    intros; by apply jac_of_with_indet.
  - by destruct (jacobian_not_Raises (F := with_indet g F) el gp err).
  - assert (jacobian (F := with_indet g' F) el gp = OutOfRange) as E'.
    { destruct (jacobian (F := with_indet g' F) el gp) as [jac| |] eqn:E'; [| |done].
      - apply jacobian_inv in E' as [Hin _].
        by rewrite (jacobian_returns (F := with_indet g F)) in E.
      - by destruct (jacobian_not_Raises (F := with_indet g' F) el gp err). }
    rewrite !computeInverseJacobian_unfold, E, E'. done.
Qed.

End uninitialised.

(** The entries of [jac] that the loops write do not depend on what its
    storage held. *)
Lemma jac_of_entries_with_indet {T} {Sc : Scalar T} (F : Fem T) (el : Element T)
    (g : T) gp i j :
  i < DIM el -> j < DIM el ->
  fem.data (jac_of (F := with_indet g F) el gp) i j = fem.data (jac_of (F := F) el gp) i j.
Proof.
  intros Hi Hj. destruct el as [e|e]; simpl in Hi, Hj.
  - unfold jac_of. rewrite !data_set. by rewrite !decide_True by lia.
  - unfold jac_of. by rewrite !Quad2D_jac_entry.
Qed.

Section assigned_on.
Context {T : Type} {Sc : Scalar T} (F : Fem T).
Variable el : Element T.
Hypothesis Hon : inverse_assigns_on F el.


End assigned_on.

(** An [inverse] that assigns on every matrix does so on every element. *)
Lemma inverse_assigns_on_every {T} {Sc : Scalar T} (F : Fem T) (el : Element T) :
  inverse_assigns F -> inverse_assigns_on F el.
Proof.
  intros Hassigns gp jac jac' ijac ijac' det det' _ Hjac Hjac'.
  apply (Hassigns (DIM el)); [destruct el; simpl; lia|].
  intros i j Hi Hj. by rewrite Hjac, Hjac'.
Qed.

(** C9, further: where [Matrix::inverse] assigns [ijac.data[0][0]] and
    [det] on every call, what uninitialised storage holds ([double det],
    [Matrix<DIM> ijac], [Matrix<DIM> jac]) reaches neither matrix: two runs
    that find [g] and [g'] there return the same. *)
Theorem uninitialised_storage_not_read {T} {Sc : Scalar T} (F : Fem T) (g g' : T)
    (el : Element T) :
  inverse_assigns F ->
  computeAe (F := with_indet g F) el = computeAe (F := with_indet g' F) el /\
  computeBe (F := with_indet g F) el = computeBe (F := with_indet g' F) el.
Proof.
  intros Hassigns. rewrite !computeAe_loops, !computeBe_loops. split.
  - unfold Ae_loops. apply outcome_rel_eq.
    eapply (outcome_rel_bind (fun s s' : list T * T => s.1 = s'.1)).
    + apply for_range_rel; [done|].
      intros gp [Ae det] [Ae' det'] _ E. simpl in E. subst Ae'.
      eapply outcome_rel_bind;
        [apply (computeInverseJacobian_with_indet F Hassigns g g')|].
      intros [[st m] dt] [[st' m'] dt'] [Hm Hdt]. simpl in Hm, Hdt. subst dt'.
      eapply (outcome_rel_bind eq); [|by intros ? ? ->].
      unfold accumulate, Ae_reads. rewrite Hm. apply outcome_rel_refl.
    + intros [Ae det] [Ae' det'] E. simpl in E. by subst.
  - unfold Be_loops. apply outcome_rel_eq.
    apply for_range_rel; [done|].
    intros gp Be Be' _ <-.
    eapply outcome_rel_bind;
      [apply (computeInverseJacobian_with_indet F Hassigns g g')|].
    intros [[st m] dt] [[st' m'] dt'] [Hm Hdt]. simpl in Hm, Hdt. subst dt'.
    apply outcome_rel_refl.
Qed.

Lemma untested_headers_assign garbage : inverse_assigns (example.untested_headers garbage).
Proof.
  intros DIM jac jac' ijac ijac' det det' [-> | ->] E; simpl;
    unfold determinant; rewrite ?data_set; simpl;
    rewrite ?(E 0 0), ?(E 0 1), ?(E 1 0), ?(E 1 1) by lia; done.
Qed.

Lemma uninitialised_storage_not_read_witness :
  inverse_assigns (example.untested_headers 0) /\
  computeAe (F := with_indet 1%R (example.untested_headers 0)) (segment2 example.coincident)
  = computeAe (F := with_indet 2%R (example.untested_headers 0)) (segment2 example.coincident) /\
  computeBe (F := with_indet 1%R (example.untested_headers 0)) (segment2 example.coincident)
  = computeBe (F := with_indet 2%R (example.untested_headers 0)) (segment2 example.coincident).
Proof.
  split; [apply untested_headers_assign|].
  apply (uninitialised_storage_not_read (example.untested_headers 0) 1%R 2%R
           (segment2 example.coincident)).
  apply untested_headers_assign.
Defined.

(** ** Construction *)

(** C8: with the constructor of [ElementBase] that the specification
    describes, constructing an element of either class from [nodes] and
    [nodeIndexes] of different lengths, or of a length other than the local
    node count of the class, raises [ShapeMismatchError]: no element is
    returned on which [computeAe] or [computeBe] could be called, and every
    element that construction does return has as many nodes as indexes. *)
Theorem construction_checks_shape {T} (expected : nat -> nat)
    (nodes_ : list (mesh.Node T)) (nodeIndexes_ : list nat) (xs_a_ xs_f_ nu_ d_ : T) :
  (length nodes_ <> length nodeIndexes_ \/ length nodes_ <> expected 1 ->
   ElementSegment2_new (Me := spec.checked_mesh expected)
     nodes_ nodeIndexes_ xs_a_ xs_f_ nu_ d_ = Raises ShapeMismatchError) /\
  (length nodes_ <> length nodeIndexes_ \/ length nodes_ <> expected 2 ->
   Quad2D_new (Me := spec.checked_mesh expected)
     nodes_ nodeIndexes_ xs_a_ xs_f_ nu_ d_ = Raises ShapeMismatchError) /\
  (forall el,
     ElementSegment2_new (Me := spec.checked_mesh expected)
       nodes_ nodeIndexes_ xs_a_ xs_f_ nu_ d_ = Returns el \/
     Quad2D_new (Me := spec.checked_mesh expected)
       nodes_ nodeIndexes_ xs_a_ xs_f_ nu_ d_ = Returns el ->
     mesh.nodes (fields el) = nodes_ /\
     length (mesh.nodes (fields el)) = length (mesh.nodeIndexes (fields el))).
Proof.
  unfold ElementSegment2_new, Quad2D_new, ElementDiffusion_new. simpl.
  unfold spec.ElementBase_ctor.
  split; [|split].
  - intros Hbad. case_decide as Hok; [by destruct Hok, Hbad | done].
  - intros Hbad. case_decide as Hok; [by destruct Hok, Hbad | done].
  - intros el.
    destruct (decide (length nodes_ = length nodeIndexes_ /\ length nodes_ = expected 1))
      as [[Hlen _]|_],
      (decide (length nodes_ = length nodeIndexes_ /\ length nodes_ = expected 2))
      as [[Hlen' _]|_];
      simpl; intros [E | E]; try discriminate; by injection E as <-.
Qed.

Lemma construction_checks_shape_witness :
  ElementSegment2_new (Me := spec.checked_mesh (fun _ => 2))
    [ example.node 0 0; example.node 1 0 ] [ 0 ] 1%R 1%R 1%R 1%R
  = Raises ShapeMismatchError /\
  Quad2D_new (Me := spec.checked_mesh (fun _ => 2))
    [ example.node 0 0; example.node 1 0; example.node 1 1 ] [ 0; 1; 2 ] 1%R 1%R 1%R 1%R
  = Raises ShapeMismatchError.
Proof.
  destruct (construction_checks_shape (fun _ => 2)
    [ example.node 0 0; example.node 1 0 ] [ 0 ] 1%R 1%R 1%R 1%R) as [HS _].
  destruct (construction_checks_shape (fun _ => 2)
    [ example.node 0 0; example.node 1 0; example.node 1 1 ] [ 0; 1; 2 ]
    1%R 1%R 1%R 1%R) as (_ & HQ & _).
  split; [apply HS; left; simpl; lia | apply HQ; right; simpl; lia].
Defined.

(** ** Partition of unity *)

(** C10: in the [Segment2] tables of the specification, which both classes
    use, at every quadrature point the values [sh] of the two shape
    functions sum to [1] and their derivatives [dsh] in the one reference
    direction sum to [0]. *)
Theorem Segment2_partition_of_unity (tol garbage : R) (gp : nat) :
  gp < length (fem.weights spec.Segment2_tables) ->
  sum_below (length (fem.sh spec.Segment2_tables))
    (fun n => sh_at (F := spec.headers tol garbage) n gp) = 1%R /\
  forall dir, dir < 1 ->
    sum_below (length (fem.dsh spec.Segment2_tables))
      (fun n => dsh_at (F := spec.headers tol garbage) n dir gp) = 0%R.
Proof.
  simpl. intros Hgp.
  destruct gp as [|[|gp]]; try lia.
  - split; [unfold sum_below, sh_at; simpl; lra|].
    intros [|dir] Hdir; [|lia]. unfold sum_below, dsh_at; simpl; lra.
  - split; [unfold sum_below, sh_at; simpl; lra|].
    intros [|dir] Hdir; [|lia]. unfold sum_below, dsh_at; simpl; lra.
Qed.

Lemma Segment2_partition_of_unity_witness :
  sum_below 2 (fun n => sh_at (F := spec.headers 0 0) n 1) = 1%R /\
  forall dir, dir < 1 ->
    sum_below 2
      (fun n => dsh_at (F := spec.headers 0 0) n dir 1) = 0%R.
Proof.
  apply (Segment2_partition_of_unity 0 0 1). simpl. lia.
Defined.

(** ** The two-node segment with the headers of the specification *)

Section spec_segment.
Local Open Scope R_scope.
Variables tol garbage : R.
Variable e : ElementDiffusion R.
Variables n0 n1 : mesh.Node R.
Hypothesis Hnodes : mesh.nodes e = [ n0; n1 ].

Local Abbreviation H := (spec.headers tol garbage).
Local Abbreviation x0 := (mesh.x n0).
Local Abbreviation x1 := (mesh.x n1).

Lemma degenerate_false det : det <> 0 -> ~ det < tol -> spec.degenerate tol det = false.
Proof.
  intros H0 Htol. unfold spec.degenerate.
  by rewrite !bool_decide_eq_false_2.
Qed.

Lemma degenerate_zero : spec.degenerate tol 0 = true.
Proof. unfold spec.degenerate. by rewrite bool_decide_eq_true_2. Qed.

Lemma two_nodes_in_range : in_range (F := H) (length (mesh.nodes e)).
Proof using Hnodes. rewrite Hnodes. apply spec_in_range. Qed.

Lemma two_nodes_jacobian_sum gp :
  (gp < 2)%nat -> jacobian_sum (F := H) e 0 0 gp = (x1 - x0) / 2.
Proof using Hnodes.
  intros Hgp. unfold jacobian_sum, sum_below, dsh_at, coordinate_at. rewrite Hnodes.
  destruct gp as [|[|gp]]; try lia; simpl; lra.
Qed.

(** What [computeInverseJacobian] leaves in [ijac] and [det] is what
    [inverse] leaves there, given half the length as the one entry. *)
Lemma two_nodes_inverse_jacobian ijac det gp :
  (gp < 2)%nat ->
  computeInverseJacobian (F := H) (segment2 e) ijac det gp =
  Returns (0%Z,
    (spec.Matrix_inverse tol 1 (fem.set (uninit (F := H)) 0 0 ((x1 - x0) / 2)) ijac det).1.2,
    (spec.Matrix_inverse tol 1 (fem.set (uninit (F := H)) 0 0 ((x1 - x0) / 2)) ijac det).2).
Proof using Hnodes.
  intros Hgp.
  rewrite computeInverseJacobian_returns
    by (apply in_range_nodes; [apply two_nodes_in_range | simpl; lia]).
  change (inverse (DIM (segment2 e)) (jac_of (segment2 e) gp) ijac det)
    with (spec.Matrix_inverse tol 1
            (fem.set (uninit (F := H)) 0 0 (jacobian_sum (F := H) e 0 0 gp)) ijac det).
  by rewrite two_nodes_jacobian_sum.
Qed.

(** On a segment of length zero [inverse] fails: [ijac] is left as it
    was, [det] is zero, and the status returned is [0] all the same. *)
Lemma two_nodes_inverse_jacobian_degenerate ijac det gp :
  (gp < 2)%nat -> x1 = x0 ->
  computeInverseJacobian (F := H) (segment2 e) ijac det gp =
  Returns (0%Z, ijac, 0).
Proof using Hnodes.
  intros Hgp Heq. rewrite two_nodes_inverse_jacobian by done.
  unfold spec.Matrix_inverse, determinant. rewrite data_set_eq.
  replace ((x1 - x0) / 2) with 0 by lra.
  by rewrite degenerate_zero.
Qed.


(** The two quadrature points, when [computeInverseJacobian] leaves the
    same [m] and [dt] at both. *)
Lemma two_nodes_computeAe m dt :
  (forall det gp, (gp < 2)%nat ->
     computeInverseJacobian (F := H) (segment2 e) (uninit (F := H)) det gp
     = Returns (0%Z, m, dt)) ->
  computeAe (F := H) (segment2 e) =
  Returns (accumulated 2 (Ae_term (F := H) e m dt 1)
            (accumulated 2 (Ae_term (F := H) e m dt 0) [ 0; 0; 0; 0 ])).
Proof using Hnodes.
  intros Hcij. pose proof two_nodes_in_range as Hin.
  rewrite computeAe_loops. unfold Ae_loops. simpl fields.
  rewrite Hnodes in Hin |- *.
  change (length (fem.weights (Segment2 (Fem := H)))) with 2%nat.
  change (length [ n0; n1 ]) with 2%nat in Hin |- *.
  rewrite !for_range_S, for_range_0, !Returns_bind.
  rewrite Hcij, Returns_bind by lia.
  rewrite (accumulate_returns 2 _ (Ae_term (F := H) e m dt 0)), !Returns_bind;
    [|done|intros; by apply (Ae_reads_returns 2); [|simpl; lia|..]].
  rewrite Hcij, Returns_bind by lia.
  rewrite (accumulate_returns 2 _ (Ae_term (F := H) e m dt 1)), !Returns_bind;
    [done|by rewrite length_accumulated|].
  intros; by apply (Ae_reads_returns 2); [|simpl; lia|..].
Qed.

Lemma two_nodes_computeBe m dt :
  (forall det gp, (gp < 2)%nat ->
     computeInverseJacobian (F := H) (segment2 e) (uninit (F := H)) det gp
     = Returns (0%Z, m, dt)) ->
  computeBe (F := H) (segment2 e) =
  Returns (accumulated 2 (Be_term (F := H) e dt 1)
            (accumulated 2 (Be_term (F := H) e dt 0) [ 0; 0; 0; 0 ])).
Proof using Hnodes.
  intros Hcij. pose proof two_nodes_in_range as Hin.
  rewrite computeBe_loops. unfold Be_loops. simpl fields.
  rewrite Hnodes in Hin |- *.
  change (length (fem.weights (Segment2 (Fem := H)))) with 2%nat.
  change (length [ n0; n1 ]) with 2%nat in Hin |- *.
  rewrite !for_range_S, for_range_0, !Returns_bind.
  rewrite (Hcij (indet (Fem := H)) 0%nat), (Hcij (indet (Fem := H)) 1%nat), Returns_bind by lia.
  rewrite (accumulate_returns 2 _ (Be_term (F := H) e dt 0)), !Returns_bind;
    [|done|intros; by apply (Be_reads_returns 2); [|simpl; lia|..]].
  rewrite (accumulate_returns 2 _ (Be_term (F := H) e dt 1));
    [done|by rewrite length_accumulated|].
  intros; by apply (Be_reads_returns 2); [|simpl; lia|..].
Qed.

End spec_segment.

(** ** The two-node segment over the tables of a linear element *)

Lemma sum_below_S {T} {Sc : Scalar T} n (f : nat -> T) :
  sum_below (S n) f = add (sum_below n f) (f n).
Proof. unfold sum_below. by rewrite seq_S, foldl_app. Qed.

Lemma entries_eq {A} (a b c d a' b' c' d' : A) :
  a = a' -> b = b' -> c = c' -> d = d' -> [ a; b; c; d ] = [ a'; b'; c'; d' ].
Proof. by intros -> -> -> ->. Qed.

Lemma Returns_entries {A} (a b c d a' b' c' d' : A) :
  a = a' -> b = b' -> c = c' -> d = d' ->
  Returns [ a; b; c; d ] = Returns [ a'; b'; c'; d' ].
Proof. by intros -> -> -> ->. Qed.

Section segment.
Local Open Scope R_scope.
Context {F : Fem R}.
Variable e : ElementDiffusion R.
Variables n0 n1 : mesh.Node R.
Variable L : R.
Hypothesis Hnodes : mesh.nodes e = [ n0; n1 ].
Hypothesis Hx : mesh.x n1 = mesh.x n0 + L.
Hypothesis HL : L <> 0.
Hypothesis Hlinear : linear_segment.
Hypothesis Hinverse : inverse_accepts (L / 2).

Local Abbreviation ngp := (length (fem.weights Segment2)).

Lemma linear_in_range : in_range (length (mesh.nodes e)).
Proof using Hnodes Hlinear.
  rewrite Hnodes. intros gp i Hgp Hi.
  destruct (Hlinear gp Hgp) as (Ha & Hb & Hs0 & Hs1).
  destruct i as [|[|i]]; [eauto..|simpl in Hi; lia].
Qed.

Lemma linear_dsh_at gp :
  (gp < ngp)%nat -> dsh_at 0 0 gp = - (1 / 2) /\ dsh_at 1 0 gp = 1 / 2.
Proof using Hlinear.
  intros Hgp. destruct (Hlinear gp Hgp) as (Ha & Hb & _).
  unfold dsh_at. by rewrite Ha, Hb.
Qed.

(** The one entry of the Jacobian is half the length. *)
Lemma linear_jacobian_sum gp : (gp < ngp)%nat -> jacobian_sum e 0 0 gp = L / 2.
Proof using Hnodes Hx Hlinear.
  intros Hgp. destruct (linear_dsh_at gp Hgp) as [Ha Hb].
  unfold jacobian_sum, sum_below. rewrite Hnodes. simpl.
  rewrite Ha, Hb. unfold coordinate_at. rewrite Hnodes. simpl. rewrite Hx. lra.
Qed.

(** [computeInverseJacobian] leaves twice the reciprocal of the length in
    [ijac] and half the length in [det]. *)
Lemma linear_inverse_jacobian ijac det gp :
  (gp < ngp)%nat ->
  exists m, computeInverseJacobian (segment2 e) ijac det gp = Returns (0%Z, m, L / 2) /\
            fem.data m 0 0 = 1 / (L / 2).
Proof using Hnodes Hx Hlinear Hinverse.
  intros Hgp.
  rewrite computeInverseJacobian_returns
    by (apply in_range_nodes; [apply linear_in_range | done]).
  destruct (Hinverse (jac_of (segment2 e) gp) ijac det) as [Hm Hdt].
  { unfold jac_of. by rewrite data_set_eq, linear_jacobian_sum. }
  eexists. split; [|exact Hm]. f_equal. f_equal. exact Hdt.
Qed.

(** What a quadrature point adds to [Ae], for [xs_a = 0]. *)
Lemma linear_Ae_term m gp i j :
  (gp < ngp)%nat -> fem.data m 0 0 = 1 / (L / 2) -> xs_a e = 0 ->
  (i < 2)%nat -> (j < 2)%nat ->
  Ae_term e m (L / 2) gp i j =
  (if decide (i = j) then d e / (2 * L) else - (d e / (2 * L))) * w_at gp.
Proof using HL Hlinear.
  intros Hgp Hm Hxs Hi Hj. destruct (linear_dsh_at gp Hgp) as [Ha Hb].
  unfold Ae_term. cbv zeta. rewrite Hm, Hxs.
  destruct i as [|[|i]], j as [|[|j]]; try lia; simpl;
    rewrite ?Ha, ?Hb; field; lra.
Qed.

(** The loop over the quadrature points of [computeAe], for [xs_a = 0]:
    each entry grows by its share of the weight. *)
Lemma linear_computeAe :
  xs_a e = 0 ->
  computeAe (segment2 e) =
  Returns [ d e / (2 * L) * sum_below ngp w_at;
            - (d e / (2 * L)) * sum_below ngp w_at;
            - (d e / (2 * L)) * sum_below ngp w_at;
            d e / (2 * L) * sum_below ngp w_at ].
Proof using Hnodes Hx HL Hlinear Hinverse.
  intros Hxs. pose proof linear_in_range as Hin.
  rewrite computeAe_loops. unfold Ae_loops. simpl fields.
  rewrite Hnodes in Hin |- *. change (length [ n0; n1 ]) with 2%nat in Hin |- *.
  destruct (for_range_returns
    (fun k (s : list R * R) =>
       s.1 = [ d e / (2 * L) * sum_below k w_at;
               - (d e / (2 * L)) * sum_below k w_at;
               - (d e / (2 * L)) * sum_below k w_at;
               d e / (2 * L) * sum_below k w_at ]) ngp
    (fun gp '(Ae, det) =>
       '(_, ijac, det) ← computeInverseJacobian (segment2 e) uninit det gp;
       Ae ← accumulate 2 (Ae_reads e ijac det gp) Ae;
       Returns (Ae, det))
    (replicate (2 * 2) zero, indet)) as ([Ae det] & -> & HAe).
  - simpl. apply entries_eq; unfold sum_below; simpl; ring.
  - intros gp [Ae det] Hgp HAe. simpl in HAe. subst Ae.
    destruct (linear_inverse_jacobian uninit det gp Hgp) as (m & -> & Hm).
    rewrite Returns_bind.
    rewrite (accumulate_returns 2 _ (Ae_term e m (L / 2) gp)), Returns_bind;
      [|done|intros; by apply (Ae_reads_returns 2)].
    eexists; split; [done|]. simpl fst.
    rewrite accumulated_2, !sum_below_S, !linear_Ae_term by (done || lia).
    apply entries_eq; simpl; ring.
  - simpl in HAe. by rewrite Returns_bind, HAe.
Qed.

(** The loop over the quadrature points of [computeBe]. *)
Lemma linear_computeBe :
  computeBe (segment2 e) =
  Returns [ nu e * xs_f e * (L / 2) *
              sum_below ngp (fun gp => sh_at 0 gp * sh_at 0 gp * w_at gp);
            nu e * xs_f e * (L / 2) *
              sum_below ngp (fun gp => sh_at 0 gp * sh_at 1 gp * w_at gp);
            nu e * xs_f e * (L / 2) *
              sum_below ngp (fun gp => sh_at 1 gp * sh_at 0 gp * w_at gp);
            nu e * xs_f e * (L / 2) *
              sum_below ngp (fun gp => sh_at 1 gp * sh_at 1 gp * w_at gp) ].
Proof using Hnodes Hx Hlinear Hinverse.
  pose proof linear_in_range as Hin.
  rewrite computeBe_loops. unfold Be_loops. simpl fields.
  rewrite Hnodes in Hin |- *. change (length [ n0; n1 ]) with 2%nat in Hin |- *.
  destruct (for_range_returns
    (fun k (Be : list R) =>
       Be = [ nu e * xs_f e * (L / 2) *
                sum_below k (fun gp => sh_at 0 gp * sh_at 0 gp * w_at gp);
              nu e * xs_f e * (L / 2) *
                sum_below k (fun gp => sh_at 0 gp * sh_at 1 gp * w_at gp);
              nu e * xs_f e * (L / 2) *
                sum_below k (fun gp => sh_at 1 gp * sh_at 0 gp * w_at gp);
              nu e * xs_f e * (L / 2) *
                sum_below k (fun gp => sh_at 1 gp * sh_at 1 gp * w_at gp) ]) ngp
    (fun gp Be =>
       '(_, ijac, det) ← computeInverseJacobian (segment2 e) uninit indet gp;
       accumulate 2 (Be_reads e det gp) Be)
    (replicate (2 * 2) zero)) as (Be & -> & HBe).
  - simpl. apply entries_eq; unfold sum_below; simpl; ring.
  - intros gp Be Hgp ->.
    destruct (linear_inverse_jacobian uninit indet gp Hgp) as (m & -> & Hm).
    rewrite Returns_bind.
    rewrite (accumulate_returns 2 _ (Be_term e (L / 2) gp));
      [|done|intros; by apply (Be_reads_returns 2)].
    eexists; split; [done|].
    rewrite accumulated_2, !sum_below_S. unfold Be_term.
    apply entries_eq; simpl; ring.
  - by rewrite HBe.
Qed.

End segment.

(** The tables and the [inverse] of the specification are of this kind. *)
Lemma spec_linear_segment tol garbage : linear_segment (F := spec.headers tol garbage).
Proof.
  intros gp Hgp. simpl in Hgp.
  destruct gp as [|[|gp]]; try lia; repeat split; eexists; reflexivity.
Qed.

Lemma spec_weights_sum tol garbage : weights_sum (F := spec.headers tol garbage).
Proof. unfold weights_sum, sum_below, w_at. simpl. lra. Qed.

Lemma spec_mass_exact tol garbage : mass_exact (F := spec.headers tol garbage).
Proof.
  pose proof xi_sqr as Hxi. intros i j Hi Hj.
  destruct i as [|[|i]], j as [|[|j]]; try lia;
    unfold sum_below, sh_at, w_at; simpl.
  all: match goal with |- ?l = ?r =>
         first
           [ assert (l - r = / 2 * (spec.xi * spec.xi - 1 / 3))%R as E by field
           | assert (l - r = - / 2 * (spec.xi * spec.xi - 1 / 3))%R as E by field ];
         rewrite Hxi in E; lra
       end.
Qed.

Lemma spec_inverse_accepts tol garbage (J : R) :
  (J <> 0)%R -> (tol <= J)%R -> inverse_accepts (F := spec.headers tol garbage) J.
Proof.
  intros HJ Htol jac ijac det <-. simpl.
  unfold spec.Matrix_inverse, determinant.
  rewrite degenerate_false by lra. by simpl.
Qed.

(** ** The exact matrices of the two-node segment *)

(** C5, as amended: in exact arithmetic, for every two-node segment of
    length [L > 0], its nodes at [x] and [x + L] in this order, with
    [xs_a = 0] and [d = D], [computeAe] returns
    [D / L * [[1, -1], [-1, 1]]].  The tables are any tables of the linear
    element whose weights sum to [2], and [inverse] accepts the element.
    On binary64 the entries are rounded, and need not be these. *)
Theorem segment_stiffness (F : Fem R) (e : ElementDiffusion R)
    (n0 n1 : mesh.Node R) (L D : R) :
  linear_segment -> weights_sum -> inverse_accepts (L / 2) ->
  mesh.nodes e = [ n0; n1 ] -> mesh.x n1 = (mesh.x n0 + L)%R -> (0 < L)%R ->
  xs_a e = 0%R -> d e = D ->
  computeAe (segment2 e) =
  Returns [ D / L * 1; D / L * -1; D / L * -1; D / L * 1 ]%R.
Proof.
  intros Hlinear Hw Hinverse Hnodes Hx HL Hxs Hd.
  rewrite (linear_computeAe e n0 n1 L) by (done || lra).
  rewrite Hw, Hd. apply Returns_entries; field; lra.
Qed.

Lemma segment_stiffness_witness :
  linear_segment (F := spec.headers 0 0) /\ weights_sum (F := spec.headers 0 0) /\
  inverse_accepts (F := spec.headers 0 0) (2 / 2) /\ (0 < 2)%R /\
  computeAe (F := spec.headers 0 0)
    (segment2 (example.two_nodes 1 0 (1 + 2) 0 0 0 0 3)) =
  Returns [ 3 / 2 * 1; 3 / 2 * -1; 3 / 2 * -1; 3 / 2 * 1 ]%R.
Proof.
  assert (inverse_accepts (F := spec.headers 0 0) (2 / 2)) as Hinverse
    by (apply spec_inverse_accepts; lra).
  split; [apply spec_linear_segment|].
  split; [apply spec_weights_sum|].
  split; [exact Hinverse|]. split; [lra|].
  apply (segment_stiffness (spec.headers 0 0) (example.two_nodes 1 0 (1 + 2) 0 0 0 0 3)
           (example.node 1 0) (example.node (1 + 2) 0) 2 3);
    first [apply spec_linear_segment | apply spec_weights_sum | exact Hinverse
          | reflexivity | lra].
Defined.

(** C6, as amended: in exact arithmetic, for the same segments, whatever
    [xs_a] and [d], so for [xs_a = d = 0], [computeBe] returns
    [nu * xs_f * L / 6 * [[2, 1], [1, 2]]].  The tables are any tables of
    the linear element whose rule integrates the products of two shape
    functions, and [inverse] accepts the element.  On binary64 the entries
    are rounded, and need not be these. *)
Theorem segment_mass (F : Fem R) (e : ElementDiffusion R)
    (n0 n1 : mesh.Node R) (L : R) :
  linear_segment -> mass_exact -> inverse_accepts (L / 2) ->
  mesh.nodes e = [ n0; n1 ] -> mesh.x n1 = (mesh.x n0 + L)%R -> (0 < L)%R ->
  computeBe (segment2 e) =
  Returns [ nu e * xs_f e * L / 6 * 2; nu e * xs_f e * L / 6 * 1;
            nu e * xs_f e * L / 6 * 1; nu e * xs_f e * L / 6 * 2 ]%R.
Proof.
  intros Hlinear Hmass Hinverse Hnodes Hx HL.
  rewrite (linear_computeBe e n0 n1 L) by (done || lra).
  rewrite (Hmass 0 0), (Hmass 0 1), (Hmass 1 0), (Hmass 1 1) by lia. simpl.
  apply Returns_entries; field.
Qed.

Lemma segment_mass_witness :
  linear_segment (F := spec.headers 0 0) /\ mass_exact (F := spec.headers 0 0) /\
  inverse_accepts (F := spec.headers 0 0) (2 / 2) /\ (0 < 2)%R /\
  computeBe (F := spec.headers 0 0)
    (segment2 (example.two_nodes 1 0 (1 + 2) 0 0 5 7 0)) =
  Returns [ 7 * 5 * 2 / 6 * 2; 7 * 5 * 2 / 6 * 1;
            7 * 5 * 2 / 6 * 1; 7 * 5 * 2 / 6 * 2 ]%R.
Proof.
  assert (inverse_accepts (F := spec.headers 0 0) (2 / 2)) as Hinverse
    by (apply spec_inverse_accepts; lra).
  split; [apply spec_linear_segment|].
  split; [apply spec_mass_exact|].
  split; [exact Hinverse|]. split; [lra|].
  apply (segment_mass (spec.headers 0 0) (example.two_nodes 1 0 (1 + 2) 0 0 5 7 0)
           (example.node 1 0) (example.node (1 + 2) 0) 2);
    first [apply spec_linear_segment | apply spec_mass_exact | exact Hinverse
          | reflexivity | lra].
Defined.

(** ** Degenerate elements *)

(** C2, as amended: no call of [computeAe] or [computeBe] raises an error,
    whatever the element and whatever [inverse] reports:
    [computeInverseJacobian] returns [0] whenever it returns, its callers
    drop that too, and when the reads of the tables are in range both
    calls return a matrix of [n * n] entries. *)
Theorem computeAe_computeBe_never_abort {T} {Sc : Scalar T} (F : Fem T) (el : Element T) :
  (forall err, computeAe el <> Raises err) /\
  (forall err, computeBe el <> Raises err) /\
  (forall ijac det gp st ijac' det',
     computeInverseJacobian el ijac det gp = Returns (st, ijac', det') -> st = 0%Z) /\
  (in_range (length (mesh.nodes (fields el))) ->
   exists Ae Be,
     computeAe el = Returns Ae /\ computeBe el = Returns Be /\
     length Ae = length (mesh.nodes (fields el)) * length (mesh.nodes (fields el)) /\
     length Be = length (mesh.nodes (fields el)) * length (mesh.nodes (fields el))).
Proof.
  rewrite computeAe_loops, computeBe_loops. repeat split.
  - apply Ae_loops_not_Raises. intros; apply computeInverseJacobian_not_Raises.
  - apply Be_loops_not_Raises. intros; apply computeInverseJacobian_not_Raises.
  - intros ijac det gp st ijac' det'. rewrite computeInverseJacobian_unfold.
    intros E. apply bind_Returns in E as (jac & _ & E). by injection E.
  - intros Hin.
    assert (forall ijac det gp, gp < length (fem.weights Segment2) ->
      exists r, computeInverseJacobian el ijac det gp = Returns r) as Hcij.
    { intros ijac det gp Hgp. eexists.
      apply computeInverseJacobian_returns. by apply in_range_nodes. }
    destruct (Ae_loops_returns _ (fields el) Hin Hcij) as (Ae & EAe & HAe).
    destruct (Be_loops_returns _ (fields el) Hin Hcij) as (Be & EBe & HBe).
    by exists Ae, Be.
Qed.

Lemma computeAe_computeBe_never_abort_witness :
  in_range (F := spec.headers 0 0) 2 /\
  exists Ae Be,
    computeAe (F := spec.headers 0 0) (segment2 example.coincident) = Returns Ae /\
    computeBe (F := spec.headers 0 0) (segment2 example.coincident) = Returns Be /\
    length Ae = 4 /\ length Be = 4.
Proof.
  split; [apply spec_in_range|].
  apply (computeAe_computeBe_never_abort (spec.headers 0 0) (segment2 example.coincident)).
  apply spec_in_range.
Defined.

(** C2, as stated, fails on the segment whose two nodes are at [x = 1],
    with the [inverse] of the specification: the [jac] of every quadrature
    point has determinant zero, and [computeAe] and [computeBe] return the
    zero matrix instead of raising [DegenerateGeometryError]. *)
Lemma coincident_segment_returns :
  (forall gp, gp < 2 ->
     exists jac,
       jacobian (F := spec.headers 0 0) (segment2 example.coincident) gp = Returns jac /\
       determinant 1 jac = 0%R) /\
  computeAe (F := spec.headers 0 0) (segment2 example.coincident)
    = Returns [ 0; 0; 0; 0 ]%R /\
  computeBe (F := spec.headers 0 0) (segment2 example.coincident)
    = Returns [ 0; 0; 0; 0 ]%R /\
  ~ aborts_where_degenerate (F := spec.headers 0 0) (segment2 example.coincident).
Proof.
  assert (forall gp, gp < 2 ->
     exists jac,
       jacobian (F := spec.headers 0 0) (segment2 example.coincident) gp = Returns jac /\
       determinant 1 jac = 0%R) as Hdet.
  { intros gp Hgp. eexists. split.
    - apply jacobian_returns. by apply spec_nodes_in_range.
    - unfold determinant, jac_of. rewrite data_set_eq.
      rewrite (two_nodes_jacobian_sum 0 0 example.coincident _ _ eq_refl) by done.
      simpl. lra. }
  assert (computeAe (F := spec.headers 0 0) (segment2 example.coincident)
            = Returns [ 0; 0; 0; 0 ]%R) as HAe.
  { rewrite (two_nodes_computeAe 0 0 example.coincident _ _ eq_refl
               (uninit (F := spec.headers 0 0)) 0%R).
    - rewrite !accumulated_2. unfold Ae_term, dsh_at, sh_at, w_at. simpl.
      apply Returns_entries; ring.
    - intros det gp Hgp.
      by apply (two_nodes_inverse_jacobian_degenerate 0 0 example.coincident _ _ eq_refl). }
  assert (computeBe (F := spec.headers 0 0) (segment2 example.coincident)
            = Returns [ 0; 0; 0; 0 ]%R) as HBe.
  { rewrite (two_nodes_computeBe 0 0 example.coincident _ _ eq_refl
               (uninit (F := spec.headers 0 0)) 0%R).
    - rewrite !accumulated_2. unfold Be_term, sh_at, w_at. simpl.
      apply Returns_entries; ring.
    - intros det gp Hgp.
      by apply (two_nodes_inverse_jacobian_degenerate 0 0 example.coincident _ _ eq_refl). }
  repeat split; [done..|].
  intros Habort. destruct (Hdet 0) as (jac & Ejac & Hjac); [lia|].
  destruct (Habort 0 jac) as [[gp' E] _]; [simpl; lia|done..|].
  rewrite HAe in E. discriminate.
Qed.


(** ** Two calls on one element *)


(** The [inverse] of the specification accepts the segment from [0] to
    [1] at the tolerance [0]. *)
Lemma spec_assigns_on_unit_segment garbage :
  inverse_assigns_on (spec.headers 0 garbage) (segment2 example.unit_segment).
Proof.
  intros gp jac jac' ijac ijac' det det' Hgp Hjac Hjac'. simpl in Hgp.
  assert (fem.data (jac_of (F := spec.headers 0 garbage)
            (segment2 example.unit_segment) gp) 0 0 = (1 / 2)%R) as Hhalf.
  { simpl jac_of. rewrite data_set_eq.
    rewrite (two_nodes_jacobian_sum 0 garbage example.unit_segment _ _ eq_refl) by done.
    simpl. lra. }
  simpl DIM in *. simpl inverse. unfold spec.Matrix_inverse, determinant.
  rewrite (Hjac 0 0), (Hjac' 0 0), Hhalf by lia.
  rewrite degenerate_false by lra. by simpl.
Qed.



(** * Further properties of the code *)

(** ** Where the calls are defined *)

Section defined.
Context {T : Type} {Sc : Scalar T} {F : Fem T}.
Implicit Types (el : Element T) (e : ElementDiffusion T).

Lemma computeInverseJacobian_inv el ijac det gp r :
  computeInverseJacobian el ijac det gp = Returns r ->
  nodes_in_range (length (mesh.nodes (fields el))) 0 gp.
Proof.
  rewrite computeInverseJacobian_unfold. intros E.
  apply bind_Returns in E as (jac & E & _). by apply jacobian_inv in E as [? _].
Qed.

Lemma Ae_reads_inv e ijac det gp i j t :
  Ae_reads e ijac det gp i j = Returns t ->
  exists v, at2 (fem.sh Segment2) i gp = Returns v.
Proof.
  unfold Ae_reads. intros E.
  apply bind_Returns in E as (a & _ & E). apply bind_Returns in E as (b & _ & E).
  apply bind_Returns in E as (si & E & _). eauto.
Qed.

Lemma Be_reads_inv e det gp i j t :
  Be_reads e det gp i j = Returns t ->
  exists v, at2 (fem.sh Segment2) i gp = Returns v.
Proof.
  unfold Be_reads. intros E. apply bind_Returns in E as (si & E & _). eauto.
Qed.

(** Where [computeAe] returns, every read of the tables was in range. *)
Lemma computeAe_inv el Ae :
  computeAe el = Returns Ae -> in_range (length (mesh.nodes (fields el))).
Proof.
  rewrite computeAe_loops. unfold Ae_loops. intros E.
  apply bind_Returns in E as ([Ae' det] & E & _).
  cut (length Ae' = length (mesh.nodes (fields el)) * length (mesh.nodes (fields el)) /\
       forall gp i, gp < length (fem.weights Segment2) ->
         i < length (mesh.nodes (fields el)) ->
         (exists v, at3 (fem.dsh Segment2) i 0 gp = Returns v) /\
         (exists v, at2 (fem.sh Segment2) i gp = Returns v)); [by intros [_ ?]|].
  revert E. apply (for_range_invariant (fun k (s : list T * T) =>
    length s.1 = length (mesh.nodes (fields el)) * length (mesh.nodes (fields el)) /\
    forall gp i, gp < k -> i < length (mesh.nodes (fields el)) ->
      (exists v, at3 (fem.dsh Segment2) i 0 gp = Returns v) /\
      (exists v, at2 (fem.sh Segment2) i gp = Returns v))).
  - split; [apply length_replicate | intros; lia].
  - intros k [M det0] [M' det1] Hk [HM Hread] E. simpl in HM.
    apply bind_Returns in E as ([[st ijac] det2] & Ecij & E).
    apply bind_Returns in E as (M'' & E & [= <- <-]).
    pose proof (length_accumulate _ _ _ _ HM E) as HM''.
    destruct (accumulate_inv _ _ _ _ HM E) as [Hterm _].
    split; [done|]. intros gp i Hgp Hi.
    destruct (decide (gp = k)) as [->|]; [|apply Hread; lia].
    split.
    + by apply (computeInverseJacobian_inv _ _ _ _ _ Ecij).
    + destruct (Hterm i i Hi Hi) as [t Et]. by apply Ae_reads_inv in Et.
Qed.

Lemma computeBe_inv el Be :
  computeBe el = Returns Be -> in_range (length (mesh.nodes (fields el))).
Proof.
  rewrite computeBe_loops. unfold Be_loops. intros E.
  cut (length Be = length (mesh.nodes (fields el)) * length (mesh.nodes (fields el)) /\
       forall gp i, gp < length (fem.weights Segment2) ->
         i < length (mesh.nodes (fields el)) ->
         (exists v, at3 (fem.dsh Segment2) i 0 gp = Returns v) /\
         (exists v, at2 (fem.sh Segment2) i gp = Returns v)); [by intros [_ ?]|].
  revert E. apply (for_range_invariant (fun k (s : list T) =>
    length s = length (mesh.nodes (fields el)) * length (mesh.nodes (fields el)) /\
    forall gp i, gp < k -> i < length (mesh.nodes (fields el)) ->
      (exists v, at3 (fem.dsh Segment2) i 0 gp = Returns v) /\
      (exists v, at2 (fem.sh Segment2) i gp = Returns v))).
  - split; [apply length_replicate | intros; lia].
  - intros k M M' Hk [HM Hread] E.
    apply bind_Returns in E as ([[st ijac] det2] & Ecij & E).
    pose proof (length_accumulate _ _ _ _ HM E) as HM'.
    destruct (accumulate_inv _ _ _ _ HM E) as [Hterm _].
    split; [done|]. intros gp i Hgp Hi.
    destruct (decide (gp = k)) as [->|]; [|apply Hread; lia].
    split.
    + by apply (computeInverseJacobian_inv _ _ _ _ _ Ecij).
    + destruct (Hterm i i Hi Hi) as [t Et]. by apply Be_reads_inv in Et.
Qed.

Lemma computeInverseJacobian_in_range el ijac det gp :
  in_range (length (mesh.nodes (fields el))) -> gp < length (fem.weights Segment2) ->
  exists r, computeInverseJacobian el ijac det gp = Returns r.
Proof.
  intros Hin Hgp. eexists. apply computeInverseJacobian_returns. by apply in_range_nodes.
Qed.

Lemma computeAe_returns el :
  in_range (length (mesh.nodes (fields el))) -> exists Ae, computeAe el = Returns Ae.
Proof.
  intros Hin. rewrite computeAe_loops.
  destruct (Ae_loops_returns (computeInverseJacobian el) (fields el) Hin) as (Ae & E & _);
    [intros; by apply computeInverseJacobian_in_range|by exists Ae].
Qed.

Lemma computeBe_returns el :
  in_range (length (mesh.nodes (fields el))) -> exists Be, computeBe el = Returns Be.
Proof.
  intros Hin. rewrite computeBe_loops.
  destruct (Be_loops_returns (computeInverseJacobian el) (fields el) Hin) as (Be & E & _);
    [intros; by apply computeInverseJacobian_in_range|by exists Be].
Qed.

Lemma computeAe_not_Raises el err : computeAe el <> Raises err.
Proof.
  rewrite computeAe_loops. apply Ae_loops_not_Raises.
  intros; apply computeInverseJacobian_not_Raises.
Qed.

Lemma computeBe_not_Raises el err : computeBe el <> Raises err.
Proof.
  rewrite computeBe_loops. apply Be_loops_not_Raises.
  intros; apply computeInverseJacobian_not_Raises.
Qed.

End defined.

(** For every element of either class, every arithmetic and every tables:
    [computeAe] returns a matrix exactly when every read of [dsh] and of
    [sh] by an element of that many nodes is in range, and so does
    [computeBe]; otherwise both index a table outside its bounds. *)
Theorem matrices_returned_iff_in_range {T} {Sc : Scalar T} (F : Fem T) (el : Element T) :
  ((exists Ae, computeAe el = Returns Ae) <-> in_range (length (mesh.nodes (fields el)))) /\
  ((exists Be, computeBe el = Returns Be) <-> in_range (length (mesh.nodes (fields el)))) /\
  (~ in_range (length (mesh.nodes (fields el))) ->
   computeAe el = OutOfRange /\ computeBe el = OutOfRange).
Proof.
  split; [|split].
  - split; [intros [Ae E]; by apply (computeAe_inv el Ae) | apply computeAe_returns].
  - split; [intros [Be E]; by apply (computeBe_inv el Be) | apply computeBe_returns].
  - intros Hout. split.
    + destruct (computeAe el) as [Ae|err|] eqn:E; [| |done].
      * destruct Hout. by apply (computeAe_inv el Ae).
      * by destruct (computeAe_not_Raises el err).
    + destruct (computeBe el) as [Be|err|] eqn:E; [| |done].
      * destruct Hout. by apply (computeBe_inv el Be).
      * by destruct (computeBe_not_Raises el err).
Qed.

Lemma matrices_returned_iff_in_range_witness :
  ~ in_range (F := spec.headers 0 0) 4 /\
  computeAe (F := spec.headers 0 0) (segment2 example.unit_square) = OutOfRange /\
  computeBe (F := spec.headers 0 0) (segment2 example.unit_square) = OutOfRange.
Proof.
  assert (~ in_range (F := spec.headers 0 0) 4) as Hout.
  { intros Hin. destruct (Hin 0 2) as [[v E] _]; [simpl; lia..|]. discriminate. }
  split; [exact Hout|].
  by apply (matrices_returned_iff_in_range (spec.headers 0 0) (segment2 example.unit_square)).
Defined.

(** ** The matrices entry by entry *)

Section entries.
Context {T : Type} {Sc : Scalar T} {F : Fem T}.
Implicit Types (el : Element T) (e : ElementDiffusion T) (f : nat -> nat -> T).

Lemma sum_below_0 (f : nat -> T) : sum_below 0 f = zero.
Proof. reflexivity. Qed.

Lemma sum_below_ext n (f g : nat -> T) :
  (forall k, k < n -> f k = g k) -> sum_below n f = sum_below n g.
Proof.
  intros E. induction n as [|n IH]; [done|].
  rewrite !sum_below_S, IH, E by (intros; (apply E || idtac); lia). done.
Qed.

Lemma length_matrix_of n f : length (matrix_of n f) = n * n.
Proof. unfold matrix_of. by rewrite length_fmap, length_seq. Qed.

Lemma lookup_matrix_of n f k :
  k < n * n -> matrix_of n f !! k = Some (f (k / n) (k mod n)).
Proof.
  intros Hk. unfold matrix_of. rewrite list_lookup_fmap, lookup_seq_lt by done. done.
Qed.

Lemma lookup_matrix_of_flat n f i j :
  i < n -> j < n -> matrix_of n f !! (n * i + j) = Some (f i j).
Proof.
  intros Hi Hj. rewrite lookup_matrix_of by (by apply flat_index_lt).
  by rewrite flat_index_div, flat_index_mod.
Qed.

Lemma flat_index_inv n k : k < n * n -> k / n < n /\ k mod n < n.
Proof.
  intros Hk. assert (n <> 0) by lia. split.
  - apply Nat.Div0.div_lt_upper_bound. lia.
  - by apply Nat.mod_upper_bound.
Qed.

Lemma matrix_of_ext n f g :
  (forall i j, i < n -> j < n -> f i j = g i j) -> matrix_of n f = matrix_of n g.
Proof.
  intros E. apply list_eq; intros k.
  destruct (decide (k < n * n)) as [Hk|Hk].
  - rewrite !lookup_matrix_of by done. f_equal.
    destruct (flat_index_inv n k Hk). by apply E.
  - rewrite !lookup_ge_None_2; [done|rewrite length_matrix_of; lia..].
Qed.

Lemma matrix_of_zero n : matrix_of n (fun _ _ => zero) = replicate (n * n) zero.
Proof.
  apply list_eq; intros k.
  destruct (decide (k < n * n)) as [Hk|Hk].
  - rewrite lookup_matrix_of, lookup_replicate_2 by done. done.
  - rewrite !lookup_ge_None_2; [done|rewrite ?length_matrix_of, ?length_replicate; lia..].
Qed.

Lemma accumulated_matrix_of n tv f :
  accumulated n tv (matrix_of n f) = matrix_of n (fun i j => add (f i j) (tv i j)).
Proof.
  apply list_eq; intros k. unfold accumulated. rewrite list_lookup_imap.
  destruct (decide (k < n * n)) as [Hk|Hk].
  - rewrite !lookup_matrix_of by done. done.
  - rewrite !lookup_ge_None_2; [done|rewrite length_matrix_of; lia..].
Qed.

Lemma entry_matrix_of n f i j : i < n -> j < n -> entry (matrix_of n f) (n * i + j) = f i j.
Proof. intros Hi Hj. unfold entry. by rewrite lookup_matrix_of_flat. Qed.

(** The loops of [computeAe]: after [k] quadrature points every entry
    holds the sum of its first [k] terms, and [det] what the last call of
    [computeInverseJacobian] left there. *)
Lemma computeAe_closed el :
  in_range (length (mesh.nodes (fields el))) ->
  computeAe el = Returns (matrix_of (length (mesh.nodes (fields el))) (Ae_entry el)).
Proof.
  intros Hin. rewrite computeAe_loops. unfold Ae_loops.
  set (n := length (mesh.nodes (fields el))) in *.
  destruct (for_range_returns
    (fun k (s : list T * T) =>
       s.1 = matrix_of n (fun i j => sum_below k (fun gp =>
               Ae_term (fields el) (Ae_ijac el gp) (Ae_det el gp) gp i j)) /\
       s.2 = Ae_det_in el k)
    (length (fem.weights Segment2))
    (fun gp '(Ae, det) =>
       '(_, ijac, det) ← computeInverseJacobian el uninit det gp;
       Ae ← accumulate n (Ae_reads (fields el) ijac det gp) Ae;
       Returns (Ae, det))
    (replicate (n * n) zero, indet)) as ([Ae det] & -> & HAe & _).
  - split; [|done]. simpl. by rewrite <- matrix_of_zero.
  - intros k [M det] Hk [HM Hdet]. simpl in HM, Hdet. subst M det.
    rewrite computeInverseJacobian_returns by (by apply in_range_nodes).
    rewrite Returns_bind. fold (Ae_ijac el k) (Ae_det el k).
    rewrite (accumulate_returns n _ (Ae_term (fields el) (Ae_ijac el k) (Ae_det el k) k)),
      Returns_bind;
      [|apply length_matrix_of|intros; by apply (Ae_reads_returns n)].
    eexists; split; [done|]. split; [|done]. simpl.
    rewrite accumulated_matrix_of. apply matrix_of_ext; intros i j _ _.
    by rewrite sum_below_S.
  - simpl in HAe. by rewrite Returns_bind, HAe.
Qed.

Lemma computeBe_closed el :
  in_range (length (mesh.nodes (fields el))) ->
  computeBe el = Returns (matrix_of (length (mesh.nodes (fields el))) (Be_entry el)).
Proof.
  intros Hin. rewrite computeBe_loops. unfold Be_loops.
  set (n := length (mesh.nodes (fields el))) in *.
  destruct (for_range_returns
    (fun k (Be : list T) =>
       Be = matrix_of n (fun i j => sum_below k (fun gp =>
              Be_term (fields el) (Be_det el gp) gp i j)))
    (length (fem.weights Segment2))
    (fun gp Be =>
       '(_, ijac, det) ← computeInverseJacobian el uninit indet gp;
       accumulate n (Be_reads (fields el) det gp) Be)
    (replicate (n * n) zero)) as (Be & -> & HBe).
  - by rewrite <- matrix_of_zero.
  - intros k M Hk ->.
    rewrite computeInverseJacobian_returns by (by apply in_range_nodes).
    rewrite Returns_bind. fold (Be_det el k).
    rewrite (accumulate_returns n _ (Be_term (fields el) (Be_det el k) k));
      [|apply length_matrix_of|intros; by apply (Be_reads_returns n)].
    eexists; split; [done|].
    rewrite accumulated_matrix_of. apply matrix_of_ext; intros i j _ _.
    by rewrite sum_below_S.
  - by rewrite HBe.
Qed.

End entries.

Section assigned.
Context {T : Type} {Sc : Scalar T} (F : Fem T).
Variable el : Element T.
Hypothesis Hon : inverse_assigns_on F el.
Variable g : T.

(** What [inverse] assigns at a quadrature point is the same whatever
    uninitialised storage held. *)
Lemma Ae_term_with_indet gp i j :
  gp < length (fem.weights (Segment2 (Fem := F))) ->
  Ae_term (F := with_indet g F) (fields el)
    (Ae_ijac (F := with_indet g F) el gp) (Ae_det (F := with_indet g F) el gp) gp i j =
  Ae_term (F := F) (fields el) (Ae_ijac (F := F) el gp) (Ae_det (F := F) el gp) gp i j.
Proof using Hon.
  intros Hgp.
  destruct (Hon gp
    (jac_of (F := with_indet g F) el gp) (jac_of (F := F) el gp)
    (uninit (F := with_indet g F)) (uninit (F := F))
    (Ae_det_in (F := with_indet g F) el gp) (Ae_det_in (F := F) el gp)) as [Hm Hdt];
    [done | intros; by apply jac_of_entries_with_indet | done |].
  unfold Ae_term, Ae_ijac, Ae_det.
  change (inverse (Fem := with_indet g F)) with (inverse (Fem := F)).
  by rewrite Hm, Hdt.
Qed.

Lemma Be_term_with_indet gp i j :
  gp < length (fem.weights (Segment2 (Fem := F))) ->
  Be_term (F := with_indet g F) (fields el) (Be_det (F := with_indet g F) el gp) gp i j =
  Be_term (F := F) (fields el) (Be_det (F := F) el gp) gp i j.
Proof using Hon.
  intros Hgp.
  destruct (Hon gp
    (jac_of (F := with_indet g F) el gp) (jac_of (F := F) el gp)
    (uninit (F := with_indet g F)) (uninit (F := F))
    (indet (Fem := with_indet g F)) (indet (Fem := F))) as [_ Hdt];
    [done | intros; by apply jac_of_entries_with_indet | done |].
  unfold Be_term, Be_det.
  change (inverse (Fem := with_indet g F)) with (inverse (Fem := F)).
  by rewrite Hdt.
Qed.

End assigned.

(** For every element of either class and every arithmetic, where
    [inverse] accepts the element at every quadrature point, assigning
    [ijac.data[0][0]] and [det], and the reads of the tables are in range,
    whatever uninitialised storage holds ([g]): [Ae[n * i + j]] is the sum
    over the quadrature points, added to [0.0] in increasing [gp], of
    [(d * dsh_i * dsh_j + xs_a * sh[i][gp] * sh[j][gp]) * wgp[gp] * det],
    and [Be[n * i + j]] the sum of
    [nu * xs_f * sh[i][gp] * sh[j][gp] * wgp[gp] * det], where
    [ijac.data[0][0]] and [det] are what [inverse] assigns on the [jac] of
    that point. *)
Theorem computeAe_computeBe_entries {T} {Sc : Scalar T} (F : Fem T) (g : T)
    (el : Element T) :
  inverse_assigns_on F el ->
  in_range (F := F) (length (mesh.nodes (fields el))) ->
  computeAe (F := with_indet g F) el =
    Returns (matrix_of (length (mesh.nodes (fields el))) (Ae_entry (F := F) el)) /\
  computeBe (F := with_indet g F) el =
    Returns (matrix_of (length (mesh.nodes (fields el))) (Be_entry (F := F) el)).
Proof.
  intros Hon Hin. split.
  - rewrite (computeAe_closed (F := with_indet g F)) by exact Hin.
    f_equal. apply matrix_of_ext; intros i j _ _.
    apply sum_below_ext; intros gp Hgp. by apply Ae_term_with_indet.
  - rewrite (computeBe_closed (F := with_indet g F)) by exact Hin.
    f_equal. apply matrix_of_ext; intros i j _ _.
    apply sum_below_ext; intros gp Hgp. by apply Be_term_with_indet.
Qed.

Lemma computeAe_computeBe_entries_witness :
  inverse_assigns_on (spec.headers 0 0) (segment2 example.unit_segment) /\
  in_range (F := spec.headers 0 0) 2 /\
  computeAe (F := with_indet 5%R (spec.headers 0 0)) (segment2 example.unit_segment) =
    Returns (matrix_of 2
      (Ae_entry (F := spec.headers 0 0) (segment2 example.unit_segment))) /\
  computeBe (F := with_indet 5%R (spec.headers 0 0)) (segment2 example.unit_segment) =
    Returns (matrix_of 2
      (Be_entry (F := spec.headers 0 0) (segment2 example.unit_segment))).
Proof.
  split; [apply spec_assigns_on_unit_segment|].
  split; [apply spec_in_range|].
  apply (computeAe_computeBe_entries (spec.headers 0 0) 5%R
           (segment2 example.unit_segment));
    [apply spec_assigns_on_unit_segment | apply spec_in_range].
Defined.

(** ** What the matrices take from the nodes *)

Section nodes.
Context {T : Type} {Sc : Scalar T} {F : Fem T}.
Implicit Types (el : Element T) (e : ElementDiffusion T).

Lemma same_class_DIM el el' : same_class el el' -> DIM el = DIM el'.
Proof. by destruct el, el'. Qed.

Lemma jac_of_congr el el' gp :
  same_class el el' ->
  jacobian_sum (fields el) 0 0 gp = jacobian_sum (fields el') 0 0 gp ->
  jac_of el gp = jac_of el' gp.
Proof.
  destruct el as [e|e], el' as [e'|e']; simpl; intros [] E;
    unfold jac_of, Quad2D_jac; by rewrite E.
Qed.

Lemma jacobian_congr el el' gp :
  same_class el el' ->
  length (mesh.nodes (fields el)) = length (mesh.nodes (fields el')) ->
  jacobian_sum (fields el) 0 0 gp = jacobian_sum (fields el') 0 0 gp ->
  jacobian el gp = jacobian el' gp.
Proof.
  intros Hclass Hlen Hsum.
  destruct (jacobian el gp) as [jac|err|] eqn:E.
  - apply jacobian_inv in E as [Hin ->].
    rewrite jacobian_returns by (by rewrite <- Hlen).
    f_equal. by apply jac_of_congr.
  - by destruct (jacobian_not_Raises el gp err).
  - destruct (jacobian el' gp) as [jac|err|] eqn:E'; [| |done].
    + apply jacobian_inv in E' as [Hin _]. rewrite <- Hlen in Hin.
      by rewrite (jacobian_returns el gp Hin) in E.
    + by destruct (jacobian_not_Raises el' gp err).
Qed.

(** The matrices depend on the nodes by their number and by the sums
    [dsh[n][0][gp] * nodes[n].x] alone. *)
Lemma matrices_congr el el' :
  same_class el el' ->
  length (mesh.nodes (fields el)) = length (mesh.nodes (fields el')) ->
  (forall gp, gp < length (fem.weights Segment2) ->
     jacobian_sum (fields el) 0 0 gp = jacobian_sum (fields el') 0 0 gp) ->
  (d (fields el) = d (fields el') -> xs_a (fields el) = xs_a (fields el') ->
   computeAe el = computeAe el') /\
  (nu (fields el) = nu (fields el') -> xs_f (fields el) = xs_f (fields el') ->
   computeBe el = computeBe el').
Proof.
  intros Hclass Hlen Hsum.
  assert (forall ijac det gp, gp < length (fem.weights Segment2) ->
    computeInverseJacobian el ijac det gp = computeInverseJacobian el' ijac det gp) as Hcij.
  { intros ijac det gp Hgp. rewrite !computeInverseJacobian_unfold.
    rewrite (jacobian_congr el el') by auto. by rewrite (same_class_DIM el el'). }
  split.
  - intros Hd Hxs. rewrite !computeAe_loops. unfold Ae_loops. rewrite <- Hlen. f_equal.
    apply for_range_ext; intros gp [Ae det] Hgp. rewrite Hcij by done.
    destruct (computeInverseJacobian el' uninit det gp) as [[[st ijac] det']| |];
      simpl; [|done..].
    unfold accumulate, Ae_reads. by rewrite Hd, Hxs.
  - intros Hnu Hxs. rewrite !computeBe_loops. unfold Be_loops. rewrite <- Hlen.
    apply for_range_ext; intros gp Be Hgp. rewrite Hcij by done.
    destruct (computeInverseJacobian el' uninit indet gp) as [[[st ijac] det']| |];
      simpl; [|done..].
    unfold accumulate, Be_reads. by rewrite Hnu, Hxs.
Qed.

Lemma coordinate_at_x e n : coordinate_at e n 0 = default zero ((mesh.x <$> mesh.nodes e) !! n).
Proof.
  unfold coordinate_at, at1. rewrite list_lookup_fmap.
  by destruct (mesh.nodes e !! n).
Qed.

End nodes.

(** Of the nodes, both matrices of either class read the [x] alone: two
    elements of one class whose nodes have the same [x], whatever their
    [y] and [z], get the same matrices, in every arithmetic. *)
Theorem computeAe_computeBe_read_x_only {T} {Sc : Scalar T} (F : Fem T)
    (el el' : Element T) :
  same_class el el' ->
  mesh.x <$> mesh.nodes (fields el) = mesh.x <$> mesh.nodes (fields el') ->
  (d (fields el) = d (fields el') -> xs_a (fields el) = xs_a (fields el') ->
   computeAe el = computeAe el') /\
  (nu (fields el) = nu (fields el') -> xs_f (fields el) = xs_f (fields el') ->
   computeBe el = computeBe el').
Proof.
  intros Hclass Hx.
  assert (length (mesh.nodes (fields el)) = length (mesh.nodes (fields el'))) as Hlen.
  { by rewrite <- (length_fmap mesh.x), Hx, length_fmap. }
  apply matrices_congr; [done..|].
  intros gp _. unfold jacobian_sum. rewrite <- Hlen.
  apply sum_below_ext; intros n _. by rewrite !coordinate_at_x, Hx.
Qed.

Lemma computeAe_computeBe_read_x_only_witness :
  computeAe (F := spec.headers 0 0) (quad2d example.skew) =
  computeAe (F := spec.headers 0 0) (quad2d (example.two_nodes 0 7 2 (-3) 1 5 6 1)) /\
  computeBe (F := spec.headers 0 0) (quad2d example.skew) =
  computeBe (F := spec.headers 0 0) (quad2d (example.two_nodes 0 7 2 (-3) 5 1 1 6)).
Proof.
  destruct (computeAe_computeBe_read_x_only (spec.headers 0 0) (quad2d example.skew)
              (quad2d (example.two_nodes 0 7 2 (-3) 1 5 6 1)) I eq_refl) as [HA _].
  destruct (computeAe_computeBe_read_x_only (spec.headers 0 0) (quad2d example.skew)
              (quad2d (example.two_nodes 0 7 2 (-3) 5 1 1 6)) I eq_refl) as [_ HB].
  split; [by apply HA | by apply HB].
Defined.

(** ** Sums in exact arithmetic *)

Section sums.
Local Open Scope R_scope.

Lemma sum_below_plus n (f g : nat -> R) :
  sum_below n (fun k => f k + g k) = sum_below n f + sum_below n g.
Proof.
  induction n as [|n IH]; [rewrite !sum_below_0; simpl; lra|].
  rewrite !sum_below_S, IH. simpl. lra.
Qed.

Lemma sum_below_scal n (c : R) (f : nat -> R) :
  sum_below n (fun k => c * f k) = c * sum_below n f.
Proof.
  induction n as [|n IH]; [rewrite !sum_below_0; simpl; lra|].
  rewrite !sum_below_S, IH. simpl. lra.
Qed.

Lemma sum_below_zero n : sum_below n (fun _ => 0) = 0.
Proof.
  induction n as [|n IH]; [done|]. rewrite sum_below_S, IH. simpl. lra.
Qed.

Lemma sum_below_all_zero n (f : nat -> R) :
  (forall k, (k < n)%nat -> f k = 0) -> sum_below n f = 0.
Proof.
  intros E. rewrite <- (sum_below_zero n). by apply sum_below_ext.
Qed.

Lemma sum_below_exchange n m (f : nat -> nat -> R) :
  sum_below n (fun i => sum_below m (fun j => f i j)) =
  sum_below m (fun j => sum_below n (fun i => f i j)).
Proof.
  induction n as [|n IH].
  - rewrite sum_below_0. symmetry. apply sum_below_zero.
  - rewrite sum_below_S, IH, <- sum_below_plus.
    apply sum_below_ext; intros j _. by rewrite sum_below_S.
Qed.

End sums.

(** ** Rigid motion along [x] *)

Section translation.
Context {F : Fem R}.
Local Open Scope R_scope.

Lemma coordinate_at_translate (t : R) (e : ElementDiffusion R) n :
  (n < length (mesh.nodes e))%nat ->
  coordinate_at (translate t e) n 0 = coordinate_at e n 0 + t.
Proof.
  intros Hn. destruct (lookup_lt_is_Some_2 _ _ Hn) as [nd End].
  unfold coordinate_at, at1, translate. simpl.
  by rewrite list_lookup_fmap, End.
Qed.

Lemma jacobian_sum_translate (t : R) (e : ElementDiffusion R) gp :
  jacobian_sum (translate t e) 0 0 gp =
  jacobian_sum e 0 0 gp + t * sum_below (length (mesh.nodes e)) (fun k => dsh_at k 0 gp).
Proof.
  unfold jacobian_sum. rewrite <- sum_below_scal, <- sum_below_plus.
  unfold translate at 1. simpl. rewrite length_fmap.
  apply sum_below_ext; intros n Hn. rewrite coordinate_at_translate by done.
  simpl. lra.
Qed.

End translation.

(** In exact arithmetic, with tables whose derivatives sum to zero over
    the nodes of the element at every quadrature point, moving every node
    of an element by the same [t] along [x] changes neither matrix. *)
Theorem matrices_translation_invariant (F : Fem R) (el : Element R) (t : R) :
  derivatives_sum_to_zero (length (mesh.nodes (fields el))) ->
  computeAe (on_fields (translate t) el) = computeAe el /\
  computeBe (on_fields (translate t) el) = computeBe el.
Proof.
  intros Hzero.
  destruct (matrices_congr (on_fields (translate t) el) el) as [HA HB].
  - by destruct el.
  - destruct el; simpl; apply length_fmap.
  - intros gp Hgp.
    replace (fields (on_fields (translate t) el)) with (translate t (fields el))
      by (by destruct el).
    rewrite jacobian_sum_translate, Hzero by done. lra.
  - split; [apply HA | apply HB]; by destruct el.
Qed.

Lemma spec_derivatives_sum_to_zero tol garbage :
  derivatives_sum_to_zero (F := spec.headers tol garbage) 2.
Proof.
  intros gp Hgp. simpl in Hgp.
  destruct gp as [|[|gp]]; try lia; unfold sum_below, dsh_at; simpl; lra.
Qed.

Lemma matrices_translation_invariant_witness :
  derivatives_sum_to_zero (F := spec.headers 0 0) 2 /\
  computeAe (F := spec.headers 0 0) (segment2 (translate 5%R example.unit_segment)) =
    computeAe (F := spec.headers 0 0) (segment2 example.unit_segment) /\
  computeBe (F := spec.headers 0 0) (segment2 (translate 5%R example.unit_segment)) =
    computeBe (F := spec.headers 0 0) (segment2 example.unit_segment).
Proof.
  split; [apply spec_derivatives_sum_to_zero|].
  apply (matrices_translation_invariant (spec.headers 0 0)
           (segment2 example.unit_segment) 5%R).
  apply spec_derivatives_sum_to_zero.
Defined.

(** ** The matrices of [Quad2D] *)

(** In exact arithmetic, with an [inverse] that leaves the determinant in
    [det] whatever it reports: every entry of both matrices of a [Quad2D]
    element is zero, whatever its nodes and its material.  Each term of
    lines 144 and 164 is multiplied by [det], and the [jac] of lines
    116-123 has determinant zero. *)
Theorem Quad2D_matrices_vanish (F : Fem R) (e : ElementDiffusion R) :
  inverse_writes_determinant ->
  in_range (length (mesh.nodes e)) ->
  Quad2D.computeAe e =
    Returns (replicate (length (mesh.nodes e) * length (mesh.nodes e)) 0%R) /\
  Quad2D.computeBe e =
    Returns (replicate (length (mesh.nodes e) * length (mesh.nodes e)) 0%R).
Proof.
  intros Hdet Hin.
  assert (forall gp, determinant 2 (Quad2D_jac e gp) = 0%R) as Hzero.
  { intros gp. unfold determinant. rewrite !Quad2D_jac_entry by lia. ring. }
  change (Quad2D.computeAe e) with (computeAe (quad2d e)).
  change (Quad2D.computeBe e) with (computeBe (quad2d e)).
  rewrite computeAe_closed, computeBe_closed by done. simpl fields.
  change (replicate (length (mesh.nodes e) * length (mesh.nodes e)) 0%R)
    with (replicate (length (mesh.nodes e) * length (mesh.nodes e)) (zero (T := R))).
  rewrite <- matrix_of_zero.
  split; f_equal; apply matrix_of_ext; intros i j _ _.
  - apply sum_below_all_zero; intros gp _.
    unfold Ae_term, Ae_det. simpl DIM. simpl jac_of. rewrite Hdet, Hzero. simpl. ring.
  - apply sum_below_all_zero; intros gp _.
    unfold Be_term, Be_det. simpl DIM. simpl jac_of. rewrite Hdet, Hzero. simpl. ring.
Qed.

Lemma spec_inverse_writes_determinant tol garbage :
  inverse_writes_determinant (F := spec.headers tol garbage).
Proof.
  intros jac ijac det. simpl. unfold spec.Matrix_inverse.
  by destruct (spec.degenerate tol _).
Qed.

Lemma Quad2D_matrices_vanish_witness :
  inverse_writes_determinant (F := spec.headers 0 0) /\
  in_range (F := spec.headers 0 0) 2 /\
  Quad2D.computeAe (F := spec.headers 0 0) example.skew = Returns (replicate 4 0%R) /\
  Quad2D.computeBe (F := spec.headers 0 0) example.skew = Returns (replicate 4 0%R).
Proof.
  split; [apply spec_inverse_writes_determinant|].
  split; [apply spec_in_range|].
  apply (Quad2D_matrices_vanish (spec.headers 0 0) example.skew);
    [apply spec_inverse_writes_determinant | apply spec_in_range].
Defined.

(** ** The material parameters *)

Section material.
Context {T : Type} {Sc : Scalar T} {F : Fem T}.
Implicit Types (el : Element T) (e : ElementDiffusion T).

(** The Jacobian step reads no material parameter. *)
Lemma jac_of_on_material el (f : ElementDiffusion T -> ElementDiffusion T) gp :
  (forall e, base (f e) = base e) ->
  jac_of (on_fields f el) gp = jac_of el gp.
Proof.
  intros Hf. destruct el as [e|e]; simpl;
    unfold Quad2D_jac, jacobian_sum, coordinate_at; by rewrite Hf.
Qed.

Lemma DIM_on_fields el (f : ElementDiffusion T -> ElementDiffusion T) :
  DIM (on_fields f el) = DIM el.
Proof. by destruct el. Qed.

Lemma fields_on_fields el (f : ElementDiffusion T -> ElementDiffusion T) :
  fields (on_fields f el) = f (fields el).
Proof. by destruct el. Qed.

Lemma Ae_det_in_on_material el (f : ElementDiffusion T -> ElementDiffusion T) gp :
  (forall e, base (f e) = base e) ->
  Ae_det_in (on_fields f el) gp = Ae_det_in el gp.
Proof.
  intros Hf. induction gp as [|gp IH]; [done|].
  simpl. by rewrite IH, DIM_on_fields, jac_of_on_material.
Qed.

Lemma Ae_ijac_on_material el (f : ElementDiffusion T -> ElementDiffusion T) gp :
  (forall e, base (f e) = base e) ->
  Ae_ijac (on_fields f el) gp = Ae_ijac el gp.
Proof.
  intros Hf. unfold Ae_ijac.
  by rewrite Ae_det_in_on_material, DIM_on_fields, jac_of_on_material.
Qed.

Lemma Ae_det_on_material el (f : ElementDiffusion T -> ElementDiffusion T) gp :
  (forall e, base (f e) = base e) ->
  Ae_det (on_fields f el) gp = Ae_det el gp.
Proof.
  intros Hf. unfold Ae_det.
  by rewrite Ae_det_in_on_material, DIM_on_fields, jac_of_on_material.
Qed.

Lemma Be_det_on_material el (f : ElementDiffusion T -> ElementDiffusion T) gp :
  (forall e, base (f e) = base e) ->
  Be_det (on_fields f el) gp = Be_det el gp.
Proof.
  intros Hf. unfold Be_det. by rewrite DIM_on_fields, jac_of_on_material.
Qed.

Lemma zip_with_matrix_of (g : T -> T -> T) n (a b : nat -> nat -> T) :
  zip_with g (matrix_of n a) (matrix_of n b) = matrix_of n (fun i j => g (a i j) (b i j)).
Proof.
  apply list_eq; intros k. rewrite lookup_zip_with.
  destruct (decide (k < n * n)) as [Hk|Hk].
  - by rewrite !lookup_matrix_of by done.
  - rewrite !lookup_ge_None_2; [done|rewrite length_matrix_of; lia..].
Qed.

Lemma fmap_matrix_of (g : T -> T) n (a : nat -> nat -> T) :
  g <$> matrix_of n a = matrix_of n (fun i j => g (a i j)).
Proof. unfold matrix_of. by rewrite <- list_fmap_compose. Qed.


End material.

(** In exact arithmetic, both matrices are linear in the material
    parameters: [Ae] is [d] times the matrix of the same element with
    [d = 1] and [xs_a = 0], plus [xs_a] times its matrix with [d = 0] and
    [xs_a = 1]; [Be] is [nu * xs_f] times its matrix with [nu = xs_f = 1].
    The three matrices of unit parameters are those of every material on
    these nodes. *)
Theorem matrices_linear_in_material (F : Fem R) (el : Element R) :
  in_range (length (mesh.nodes (fields el))) ->
  exists K M B,
    computeAe (on_fields (with_material 0%R 0%R 0%R 1%R) el) = Returns K /\
    computeAe (on_fields (with_material 1%R 0%R 0%R 0%R) el) = Returns M /\
    computeBe (on_fields (with_material 0%R 1%R 1%R 0%R) el) = Returns B /\
    computeAe el =
      Returns (zip_with (fun k m => d (fields el) * k + xs_a (fields el) * m) K M)%R /\
    computeBe el =
      Returns ((fun b => nu (fields el) * xs_f (fields el) * b) <$> B)%R.
Proof.
  intros Hin.
  assert (forall a f n dd,
    length (mesh.nodes (fields (on_fields (with_material a f n dd) el))) =
    length (mesh.nodes (fields el))) as Hlen by (by destruct el).
  eexists _, _, _.
  split; [apply computeAe_closed; by rewrite Hlen|].
  split; [apply computeAe_closed; by rewrite Hlen|].
  split; [apply computeBe_closed; by rewrite Hlen|].
  rewrite !Hlen, zip_with_matrix_of, fmap_matrix_of.
  rewrite computeAe_closed, computeBe_closed by done.
  split; f_equal; apply matrix_of_ext; intros i j _ _.
  - unfold Ae_entry. rewrite <- !sum_below_scal, <- sum_below_plus.
    apply sum_below_ext; intros gp _.
    rewrite !Ae_ijac_on_material, !Ae_det_on_material, !fields_on_fields by done.
    unfold Ae_term. simpl. ring.
  - unfold Be_entry. rewrite <- !sum_below_scal.
    apply sum_below_ext; intros gp _.
    rewrite !Be_det_on_material, !fields_on_fields by done.
    unfold Be_term. simpl. ring.
Qed.

Lemma matrices_linear_in_material_witness :
  in_range (F := spec.headers 0 0) 2 /\
  exists K M B,
    computeAe (F := spec.headers 0 0) (segment2 (example.two_nodes 0 0 1 0 0 0 0 1))
      = Returns K /\
    computeAe (F := spec.headers 0 0) (segment2 (example.two_nodes 0 0 1 0 1 0 0 0))
      = Returns M /\
    computeBe (F := spec.headers 0 0) (segment2 (example.two_nodes 0 0 1 0 0 1 1 0))
      = Returns B /\
    computeAe (F := spec.headers 0 0) (segment2 (example.two_nodes 0 0 1 0 3 5 7 2)) =
      Returns (zip_with (fun k m => 2 * k + 3 * m) K M)%R /\
    computeBe (F := spec.headers 0 0) (segment2 (example.two_nodes 0 0 1 0 3 5 7 2)) =
      Returns ((fun b => 7 * 5 * b) <$> B)%R.
Proof.
  split; [apply spec_in_range|].
  apply (matrices_linear_in_material (spec.headers 0 0)
           (segment2 (example.two_nodes 0 0 1 0 3 5 7 2))).
  apply spec_in_range.
Defined.



(** ** Sums of the entries *)

(** In exact arithmetic, for a material with [xs_a = 0] and tables whose
    derivatives sum to zero over the nodes of the element: every row and
    every column of the matrix that [computeAe] returns sums to zero, for
    either class and whatever [inverse] left in [ijac] and [det].  The
    stiffness matrix sends the constant vectors to zero. *)
Theorem stiffness_annihilates_constants (F : Fem R) (el : Element R) (Ae : list R) :
  derivatives_sum_to_zero (length (mesh.nodes (fields el))) ->
  xs_a (fields el) = 0%R ->
  computeAe el = Returns Ae ->
  forall i, i < length (mesh.nodes (fields el)) ->
    sum_below (length (mesh.nodes (fields el)))
      (fun j => entry Ae (length (mesh.nodes (fields el)) * i + j)) = 0%R /\
    sum_below (length (mesh.nodes (fields el)))
      (fun j => entry Ae (length (mesh.nodes (fields el)) * j + i)) = 0%R.
Proof.
  intros Hzero Hxs E i Hi.
  pose proof (computeAe_inv el Ae E) as Hin.
  rewrite computeAe_closed in E by done. injection E as <-.
  set (n := length (mesh.nodes (fields el))) in *.
  split.
  - rewrite (sum_below_ext n _ (fun j => Ae_entry el i j))
      by (intros j Hj; by apply entry_matrix_of).
    unfold Ae_entry. rewrite sum_below_exchange.
    apply sum_below_all_zero; intros gp Hgp.
    rewrite (sum_below_ext n _ (fun j =>
      d (fields el) * (dsh_at i 0 gp * fem.data (Ae_ijac el gp) 0 0)
        * fem.data (Ae_ijac el gp) 0 0 * w_at gp * Ae_det el gp * dsh_at j 0 gp)%R).
    + rewrite sum_below_scal, Hzero by done. ring.
    + intros j _. unfold Ae_term. rewrite Hxs. simpl. ring.
  - rewrite (sum_below_ext n _ (fun j => Ae_entry el j i))
      by (intros j Hj; by apply entry_matrix_of).
    unfold Ae_entry. rewrite sum_below_exchange.
    apply sum_below_all_zero; intros gp Hgp.
    rewrite (sum_below_ext n _ (fun j =>
      d (fields el) * (dsh_at i 0 gp * fem.data (Ae_ijac el gp) 0 0)
        * fem.data (Ae_ijac el gp) 0 0 * w_at gp * Ae_det el gp * dsh_at j 0 gp)%R).
    + rewrite sum_below_scal, Hzero by done. ring.
    + intros j _. unfold Ae_term. rewrite Hxs. simpl. ring.
Qed.

Lemma stiffness_annihilates_constants_witness :
  derivatives_sum_to_zero (F := spec.headers 0 0) 2 /\
  exists Ae,
    computeAe (F := spec.headers 0 0) (segment2 (example.two_nodes 0 0 1 0 0 1 1 1))
      = Returns Ae /\
    forall i, i < 2 ->
      sum_below 2 (fun j => entry Ae (2 * i + j)) = 0%R /\
      sum_below 2 (fun j => entry Ae (2 * j + i)) = 0%R.
Proof.
  split; [apply spec_derivatives_sum_to_zero|].
  destruct (computeAe_returns (F := spec.headers 0 0)
              (segment2 (example.two_nodes 0 0 1 0 0 1 1 1))) as [Ae E];
    [apply spec_in_range|].
  exists Ae. split; [exact E|].
  exact (stiffness_annihilates_constants (spec.headers 0 0)
           (segment2 (example.two_nodes 0 0 1 0 0 1 1 1)) Ae
           (spec_derivatives_sum_to_zero 0 0) eq_refl E).
Defined.

(** In exact arithmetic, with tables whose shape functions sum to one over
    the nodes of the element: the entries of the matrix that [computeBe]
    returns sum to [nu * xs_f] times the sum over the quadrature points of
    [wgp[gp] * det], the measure of the element as [inverse] reports
    it. *)
Theorem fission_matrix_total (F : Fem R) (el : Element R) (Be : list R) :
  shapes_sum_to_one (length (mesh.nodes (fields el))) ->
  computeBe el = Returns Be ->
  sum_below (length (mesh.nodes (fields el))) (fun i =>
    sum_below (length (mesh.nodes (fields el))) (fun j =>
      entry Be (length (mesh.nodes (fields el)) * i + j))) =
  (nu (fields el) * xs_f (fields el) *
   sum_below (length (fem.weights Segment2)) (fun gp => w_at gp * Be_det el gp))%R.
Proof.
  intros Hone E.
  pose proof (computeBe_inv el Be E) as Hin.
  rewrite computeBe_closed in E by done. injection E as <-.
  set (n := length (mesh.nodes (fields el))) in *.
  rewrite (sum_below_ext n _ (fun i =>
    sum_below (length (fem.weights Segment2)) (fun gp =>
      sum_below n (fun j => Be_term (fields el) (Be_det el gp) gp i j)))).
  2:{ intros i Hi.
      rewrite (sum_below_ext n _ (fun j => Be_entry el i j))
        by (intros j Hj; by apply entry_matrix_of).
      apply (sum_below_exchange n _
               (fun j gp => Be_term (fields el) (Be_det el gp) gp i j)). }
  rewrite sum_below_exchange, <- sum_below_scal.
  apply sum_below_ext; intros gp Hgp.
  rewrite (sum_below_ext n _ (fun i =>
    nu (fields el) * xs_f (fields el) * w_at gp * Be_det el gp * sh_at i gp)%R).
  - rewrite sum_below_scal, Hone by done. ring.
  - intros i _.
    rewrite (sum_below_ext n _ (fun j =>
      nu (fields el) * xs_f (fields el) * sh_at i gp * w_at gp * Be_det el gp
        * sh_at j gp)%R).
    + rewrite sum_below_scal, Hone by done. ring.
    + intros j _. unfold Be_term. simpl. ring.
Qed.

Lemma spec_shapes_sum_to_one tol garbage :
  shapes_sum_to_one (F := spec.headers tol garbage) 2.
Proof.
  intros gp Hgp. simpl in Hgp.
  destruct gp as [|[|gp]]; try lia; unfold sum_below, sh_at; simpl; lra.
Qed.

Lemma fission_matrix_total_witness :
  shapes_sum_to_one (F := spec.headers 0 0) 2 /\
  exists Be,
    computeBe (F := spec.headers 0 0) (segment2 (example.two_nodes 0 0 3 0 0 5 7 0))
      = Returns Be /\
    sum_below 2 (fun i => sum_below 2 (fun j => entry Be (2 * i + j))) =
    (7 * 5 * sum_below 2 (fun gp =>
       w_at (F := spec.headers 0 0) gp *
       Be_det (F := spec.headers 0 0)
         (segment2 (example.two_nodes 0 0 3 0 0 5 7 0)) gp))%R.
Proof.
  split; [apply spec_shapes_sum_to_one|].
  destruct (computeBe_returns (F := spec.headers 0 0)
              (segment2 (example.two_nodes 0 0 3 0 0 5 7 0))) as [Be E];
    [apply spec_in_range|].
  exists Be. split; [exact E|].
  exact (fission_matrix_total (spec.headers 0 0)
           (segment2 (example.two_nodes 0 0 3 0 0 5 7 0)) Be
           (spec_shapes_sum_to_one 0 0) E).
Defined.

(** ** The two-node segment with absorption, in either orientation *)

Lemma matrix_of_2 {T} {Sc : Scalar T} (f : nat -> nat -> T) :
  matrix_of 2 f = [ f 0 0; f 0 1; f 1 0; f 1 1 ].
Proof. reflexivity. Qed.

Section segment_signed.
Local Open Scope R_scope.
Context {F : Fem R}.
Variable e : ElementDiffusion R.
Variables n0 n1 : mesh.Node R.
Variable L : R.
Hypothesis Hnodes : mesh.nodes e = [ n0; n1 ].
Hypothesis Hx : mesh.x n1 = mesh.x n0 + L.
Hypothesis HL : L <> 0.
Hypothesis Hlinear : linear_segment.
Hypothesis Hweights : weights_sum.
Hypothesis Hmass : mass_exact.
Hypothesis Hinverse : inverse_accepts (L / 2).

Lemma signed_Ae_ijac_det gp :
  (gp < length (fem.weights Segment2))%nat ->
  fem.data (Ae_ijac (segment2 e) gp) 0 0 = 1 / (L / 2) /\ Ae_det (segment2 e) gp = L / 2.
Proof using Hnodes Hx Hlinear Hinverse.
  intros Hgp. apply Hinverse. simpl jac_of.
  by rewrite data_set_eq, (linear_jacobian_sum e n0 n1 L).
Qed.

Lemma signed_Ae_entry i j :
  (i < 2)%nat -> (j < 2)%nat ->
  Ae_entry (segment2 e) i j =
  (if decide (i = j) then d e / L else - (d e / L)) +
  xs_a e * L / 6 * (if decide (i = j) then 2 else 1).
Proof using Hnodes Hx HL Hlinear Hweights Hmass Hinverse.
  intros Hi Hj. unfold Ae_entry.
  rewrite (sum_below_ext _ _ (fun gp =>
    (if decide (i = j) then d e / (2 * L) else - (d e / (2 * L))) * w_at gp +
    xs_a e * (L / 2) * (sh_at i gp * sh_at j gp * w_at gp))).
  - rewrite sum_below_plus, !sum_below_scal, Hweights, (Hmass i j) by done.
    destruct (decide (i = j)); field; lra.
  - intros gp Hgp. destruct (signed_Ae_ijac_det gp Hgp) as [Hm Hdt].
    destruct (linear_dsh_at Hlinear gp Hgp) as [Ha Hb].
    unfold Ae_term. cbv zeta. simpl fields. rewrite Hm, Hdt.
    destruct i as [|[|i]], j as [|[|j]]; try lia; simpl;
      rewrite ?Ha, ?Hb; field; lra.
Qed.

End segment_signed.

(** In exact arithmetic, for the two-node segment whose nodes are at [x]
    and [x + L] in the local order, [L] of either sign, with tables and an
    [inverse] as for the stiffness and the mass matrix: [computeAe]
    returns [d / L * [[1, -1], [-1, 1]] + xs_a * L / 6 * [[2, 1], [1, 2]]]
    and [computeBe] returns [nu * xs_f * L / 6 * [[2, 1], [1, 2]]].  The
    quadrature multiplies by [det], not by its absolute value: for nodes
    listed in decreasing [x] both matrices change sign. *)
Theorem segment_matrices_signed (F : Fem R) (e : ElementDiffusion R)
    (n0 n1 : mesh.Node R) (L : R) :
  linear_segment -> weights_sum -> mass_exact -> inverse_accepts (L / 2) ->
  mesh.nodes e = [ n0; n1 ] -> mesh.x n1 = (mesh.x n0 + L)%R -> L <> 0%R ->
  computeAe (segment2 e) =
    Returns [ d e / L + xs_a e * L / 6 * 2; - (d e / L) + xs_a e * L / 6 * 1;
              - (d e / L) + xs_a e * L / 6 * 1; d e / L + xs_a e * L / 6 * 2 ]%R /\
  computeBe (segment2 e) =
    Returns [ nu e * xs_f e * L / 6 * 2; nu e * xs_f e * L / 6 * 1;
              nu e * xs_f e * L / 6 * 1; nu e * xs_f e * L / 6 * 2 ]%R.
Proof.
  intros Hlinear Hweights Hmass Hinverse Hnodes Hx HL. split.
  - rewrite computeAe_closed by (by apply (linear_in_range e n0 n1)).
    simpl fields. rewrite Hnodes. change (length [ n0; n1 ]) with 2%nat.
    rewrite matrix_of_2.
    by rewrite !(signed_Ae_entry e n0 n1 L) by (done || lia).
  - rewrite (linear_computeBe e n0 n1 L) by done.
    rewrite (Hmass 0 0), (Hmass 0 1), (Hmass 1 0), (Hmass 1 1) by lia. simpl.
    apply Returns_entries; field.
Qed.

Lemma untested_linear_segment garbage :
  linear_segment (F := example.untested_headers garbage).
Proof. apply (spec_linear_segment 0 0). Qed.

Lemma untested_weights_sum garbage : weights_sum (F := example.untested_headers garbage).
Proof. apply (spec_weights_sum 0 0). Qed.

Lemma untested_mass_exact garbage : mass_exact (F := example.untested_headers garbage).
Proof. apply (spec_mass_exact 0 0). Qed.

Lemma untested_inverse_accepts garbage (J : R) :
  inverse_accepts (F := example.untested_headers garbage) J.
Proof. intros jac ijac det <-. by simpl. Qed.

Lemma segment_matrices_signed_witness :
  computeAe (F := example.untested_headers 0)
    (segment2 (example.two_nodes 3 0 (3 + -2) 0 6 5 7 4)) =
    Returns [ 4 / -2 + 6 * -2 / 6 * 2; - (4 / -2) + 6 * -2 / 6 * 1;
              - (4 / -2) + 6 * -2 / 6 * 1; 4 / -2 + 6 * -2 / 6 * 2 ]%R /\
  computeBe (F := example.untested_headers 0)
    (segment2 (example.two_nodes 3 0 (3 + -2) 0 6 5 7 4)) =
    Returns [ 7 * 5 * -2 / 6 * 2; 7 * 5 * -2 / 6 * 1;
              7 * 5 * -2 / 6 * 1; 7 * 5 * -2 / 6 * 2 ]%R.
Proof.
  apply (segment_matrices_signed (example.untested_headers 0)
           (example.two_nodes 3 0 (3 + -2) 0 6 5 7 4)
           (example.node 3 0) (example.node (3 + -2) 0) (-2));
    first [ apply untested_linear_segment | apply untested_weights_sum
          | apply untested_mass_exact | apply untested_inverse_accepts
          | reflexivity | lra ].
Defined.

(** ** A segment that [inverse] refuses *)

Section segment_refused.
Local Open Scope R_scope.
Context {F : Fem R}.
Variable e : ElementDiffusion R.
Variables n0 n1 : mesh.Node R.
Variable L : R.
Hypothesis Hnodes : mesh.nodes e = [ n0; n1 ].
Hypothesis Hx : mesh.x n1 = mesh.x n0 + L.
Hypothesis Hlinear : linear_segment.
Hypothesis Hweights : weights_sum.
Hypothesis Hmass : mass_exact.
Hypothesis Hinverse : inverse_refuses (L / 2).

Lemma refused_Ae_ijac_det gp :
  (gp < length (fem.weights Segment2))%nat ->
  fem.data (Ae_ijac (segment2 e) gp) 0 0 = indet /\ Ae_det (segment2 e) gp = L / 2.
Proof using Hnodes Hx Hlinear Hinverse.
  intros Hgp. unfold Ae_ijac, Ae_det. simpl DIM.
  destruct (Hinverse (jac_of (segment2 e) gp) uninit (Ae_det_in (segment2 e) gp))
    as [-> ->]; [|done].
  simpl jac_of. by rewrite data_set_eq, (linear_jacobian_sum e n0 n1 L).
Qed.

Lemma refused_Ae_entry i j :
  (i < 2)%nat -> (j < 2)%nat ->
  Ae_entry (segment2 e) i j =
  (if decide (i = j) then d e * indet * indet * L / 4
   else - (d e * indet * indet * L / 4)) +
  xs_a e * L / 6 * (if decide (i = j) then 2 else 1).
Proof using Hnodes Hx Hlinear Hweights Hmass Hinverse.
  intros Hi Hj. unfold Ae_entry.
  rewrite (sum_below_ext _ _ (fun gp =>
    (if decide (i = j) then d e * indet * indet * L / 8
     else - (d e * indet * indet * L / 8)) * w_at gp +
    xs_a e * (L / 2) * (sh_at i gp * sh_at j gp * w_at gp))).
  - rewrite sum_below_plus, !sum_below_scal, Hweights, (Hmass i j) by done.
    destruct (decide (i = j)); field.
  - intros gp Hgp. destruct (refused_Ae_ijac_det gp Hgp) as [Hm Hdt].
    destruct (linear_dsh_at Hlinear gp Hgp) as [Ha Hb].
    unfold Ae_term. cbv zeta. simpl fields. rewrite Hm, Hdt.
    destruct i as [|[|i]], j as [|[|j]]; try lia; simpl;
      rewrite ?Ha, ?Hb; field.
Qed.

End segment_refused.

(** In exact arithmetic, for a two-node segment that [inverse] refuses,
    leaving [ijac] as it was handed it and the determinant in [det]:
    [computeAe], which drops the status, returns
    [d * g * g * L / 4 * [[1, -1], [-1, 1]] + xs_a * L / 6 * [[2, 1], [1, 2]]],
    where [g] is what the uninitialised [ijac] of line 74 held.  The
    stiffness part is made of uninitialised storage. *)
Theorem refused_segment_reads_uninitialised (F : Fem R) (e : ElementDiffusion R)
    (n0 n1 : mesh.Node R) (L : R) :
  linear_segment -> weights_sum -> mass_exact -> inverse_refuses (L / 2) ->
  mesh.nodes e = [ n0; n1 ] -> mesh.x n1 = (mesh.x n0 + L)%R ->
  computeAe (segment2 e) =
    Returns [ d e * indet * indet * L / 4 + xs_a e * L / 6 * 2;
              - (d e * indet * indet * L / 4) + xs_a e * L / 6 * 1;
              - (d e * indet * indet * L / 4) + xs_a e * L / 6 * 1;
              d e * indet * indet * L / 4 + xs_a e * L / 6 * 2 ]%R.
Proof.
  intros Hlinear Hweights Hmass Hinverse Hnodes Hx.
  rewrite computeAe_closed by (by apply (linear_in_range e n0 n1)).
  simpl fields. rewrite Hnodes. change (length [ n0; n1 ]) with 2%nat.
  rewrite matrix_of_2.
  by rewrite !(refused_Ae_entry e n0 n1 L) by (done || lia).
Qed.

Lemma spec_inverse_refuses tol garbage (J : R) :
  (J < tol)%R -> inverse_refuses (F := spec.headers tol garbage) J.
Proof.
  intros Htol jac ijac det <-. simpl.
  unfold spec.Matrix_inverse, determinant, spec.degenerate.
  rewrite (bool_decide_eq_true_2 (_ < _)%R) by done.
  by rewrite orb_true_r.
Qed.

Lemma refused_segment_reads_uninitialised_witness :
  inverse_refuses (F := spec.headers 1 7) (1 / 2) /\
  computeAe (F := spec.headers 1 7) (segment2 (example.two_nodes 0 0 (0 + 1) 0 6 5 7 4)) =
    Returns [ 4 * 7 * 7 * 1 / 4 + 6 * 1 / 6 * 2; - (4 * 7 * 7 * 1 / 4) + 6 * 1 / 6 * 1;
              - (4 * 7 * 7 * 1 / 4) + 6 * 1 / 6 * 1; 4 * 7 * 7 * 1 / 4 + 6 * 1 / 6 * 2 ]%R.
Proof.
  assert (inverse_refuses (F := spec.headers 1 7) (1 / 2)) as Hinverse
    by (apply spec_inverse_refuses; lra).
  split; [exact Hinverse|].
  apply (refused_segment_reads_uninitialised (spec.headers 1 7)
           (example.two_nodes 0 0 (0 + 1) 0 6 5 7 4)
           (example.node 0 0) (example.node (0 + 1) 0) 1);
    first [ apply spec_linear_segment | apply spec_weights_sum
          | apply spec_mass_exact | exact Hinverse | reflexivity ].
Defined.

(** ** What [computeBe] takes from [inverse] *)

(** For every element of either class and every arithmetic: of what
    [inverse] leaves behind, [computeBe] uses [det] alone.  Whatever is
    put in place of the [ijac] that [computeInverseJacobian] hands back,
    the matrix is the same. *)
Theorem computeBe_ignores_ijac {T} {Sc : Scalar T} (F : Fem T)
    (h : fem.Matrix T -> fem.Matrix T) (el : Element T) :
  computeBe (F := with_ijac h F) el = computeBe (F := F) el.
Proof.
  rewrite (computeBe_loops (F := with_ijac h F)), (computeBe_loops (F := F)).
  unfold Be_loops.
  apply for_range_ext; intros gp Be _.
  rewrite (computeInverseJacobian_unfold (F := with_ijac h F)),
    (computeInverseJacobian_unfold (F := F)).
  change (jacobian (F := with_ijac h F) el gp) with (jacobian (F := F) el gp).
  destruct (jacobian el gp) as [jac| |]; [|done..].
  rewrite !Returns_bind.
  change (uninit (F := with_ijac h F)) with (uninit (F := F)).
  change (indet (Fem := with_ijac h F)) with (indet (Fem := F)).
  change (inverse (Fem := with_ijac h F) (DIM el) jac uninit indet)
    with (let '(st, m, dt) := inverse (Fem := F) (DIM el) jac uninit indet in
          (st, h m, dt)).
  by destruct (inverse (DIM el) jac uninit indet) as [[st m] dt].
Qed.

(** ** The Jacobian of the two-node segment *)

(** In exact arithmetic, with the tables of the linear element, whatever
    its quadrature rule: at every quadrature point the [jac] of a segment
    whose nodes are at [x] and [x + L] holds [L / 2], half the signed
    length, and [computeInverseJacobian] returns [0] with what [inverse]
    leaves in [ijac] and [det] on that [jac]. *)
Theorem segment_jacobian_half_length (F : Fem R) (e : ElementDiffusion R)
    (n0 n1 : mesh.Node R) (L : R) (ijac : fem.Matrix R) (det : R) (gp : nat) :
  linear_segment ->
  mesh.nodes e = [ n0; n1 ] -> mesh.x n1 = (mesh.x n0 + L)%R ->
  gp < length (fem.weights Segment2) ->
  exists jac,
    ElementSegment2.jacobian e gp = Returns jac /\
    fem.data jac 0 0 = (L / 2)%R /\
    ElementSegment2.computeInverseJacobian e ijac det gp =
      Returns (0%Z, (inverse 1 jac ijac det).1.2, (inverse 1 jac ijac det).2).
Proof.
  intros Hlinear Hnodes Hx Hgp.
  assert (nodes_in_range (length (mesh.nodes e)) 0 gp) as Hin.
  { apply in_range_nodes; [by apply (linear_in_range e n0 n1) | done]. }
  exists (jac_of (segment2 e) gp). split; [|split].
  - by apply (jacobian_returns (segment2 e)).
  - simpl jac_of. by rewrite data_set_eq, (linear_jacobian_sum e n0 n1 L).
  - by apply (computeInverseJacobian_returns (segment2 e)).
Qed.

Lemma segment_jacobian_half_length_witness :
  exists jac,
    ElementSegment2.jacobian (F := spec.headers 0 0)
      (example.two_nodes 1 0 (1 + 3) 0 1 1 1 1) 1 = Returns jac /\
    fem.data jac 0 0 = (3 / 2)%R /\
    ElementSegment2.computeInverseJacobian (F := spec.headers 0 0)
      (example.two_nodes 1 0 (1 + 3) 0 1 1 1 1) (uninit (F := spec.headers 0 0)) 0%R 1 =
      Returns (0%Z,
        (inverse (Fem := spec.headers 0 0) 1 jac (uninit (F := spec.headers 0 0)) 0%R).1.2,
        (inverse (Fem := spec.headers 0 0) 1 jac (uninit (F := spec.headers 0 0)) 0%R).2).
Proof.
  apply (segment_jacobian_half_length (spec.headers 0 0)
           (example.two_nodes 1 0 (1 + 3) 0 1 1 1 1)
           (example.node 1 0) (example.node (1 + 3) 0) 3
           (uninit (F := spec.headers 0 0)) 0%R 1);
    first [ apply spec_linear_segment | reflexivity | simpl; lia ].
Defined.

(** ** The code on binary64 *)

(** The stiffness matrix of the segment from [0] to [1] with [d = 1]. *)
Example binary64_stiffness :
  computeAe (F := binary64.headers 0 0) (segment2 (binary64.two_nodes 0 0 1 0 0 0 0 1))
  = Returns [ 1; -1; -1; 1 ]%float.
Proof. vm_compute. reflexivity. Qed.

(** The mass matrix of the segment from [0] to [3] with [nu = xs_f = 1]:
    the entries of [nu * xs_f * L / 6 * [[2, 1], [1, 2]]], which are [1] and
    [0.5], up to the rounding of the products and of the table. *)
Example binary64_mass :
  computeBe (F := binary64.headers 0 0) (segment2 (binary64.two_nodes 0 0 3 0 0 1 1 0))
  = Returns [ 1; 0x1.ffffffffffffep-2; 0x1.ffffffffffffep-2; 1 ]%float.
Proof. vm_compute. reflexivity. Qed.

(** The segment of length zero: [inverse] fails and leaves [ijac] as it
    was declared, [computeAe] multiplies what it finds there by a
    determinant of zero.  Where the storage held a NaN the matrix is NaN. *)
Example binary64_coincident :
  computeAe (F := binary64.headers 0 0) (segment2 (binary64.two_nodes 1 0 1 0 1 1 1 1))
    = Returns [ 0; 0; 0; 0 ]%float /\
  computeAe (F := binary64.headers 0 nan) (segment2 (binary64.two_nodes 1 0 1 0 1 1 1 1))
    = Returns [ nan; nan; nan; nan ]%float /\
  computeBe (F := binary64.headers 0 nan) (segment2 (binary64.two_nodes 1 0 1 0 1 1 1 1))
    = Returns [ 0; 0; 0; 0 ]%float.
Proof. repeat split; vm_compute; reflexivity. Qed.

(** C5, as stated, fails on binary64.  On the segment from [0] to [10]
    with [d = 3] the entries that [computeAe] returns are not those of
    [D / L * [[1, -1], [-1, 1]]] evaluated in binary64: the code rounds
    [d * dsh_i * dsh_j * wgp * det] at every operation and ends one unit in
    the last place above [3 / 10].  On the segment from [0] to [2^-600]
    with [d = 1] the product [d * dsh_i * dsh_j] overflows and the entries
    are infinite, where [D / L] is [2^600]. *)
Lemma binary64_stiffness_differs :
  computeAe (F := binary64.headers 0 0) (segment2 (binary64.two_nodes 0 0 10 0 0 0 0 3))
    = Returns [ 0x1.3333333333334p-2; -0x1.3333333333334p-2;
                -0x1.3333333333334p-2; 0x1.3333333333334p-2 ]%float /\
  (3 / 10 * 1 = 0x1.3333333333333p-2)%float /\
  PrimFloat.eqb 0x1.3333333333334p-2 (3 / 10 * 1) = false /\
  computeAe (F := binary64.headers 0 0)
    (segment2 (binary64.two_nodes 0 0 0x1p-600 0 0 0 0 1))
    = Returns [ infinity; neg_infinity; neg_infinity; infinity ]%float /\
  (1 / 0x1p-600 * 1 = 0x1p600)%float /\
  PrimFloat.eqb infinity (1 / 0x1p-600 * 1) = false.
Proof. repeat split; vm_compute; reflexivity. Qed.

(** C6, as stated, fails on binary64.  On the segment from [0] to [3] with
    [nu = xs_f = 1] the off-diagonal entries that [computeBe] returns are
    [2^-53] below [nu * xs_f * L / 6 * 1], which is [0.5] exactly; on the segment from [1] to [3] with [nu = 7] and
    [xs_f = 5] they are one unit in the last place below the binary64
    value of [7 * 5 * 2 / 6 * 1]. *)
Lemma binary64_mass_differs :
  computeBe (F := binary64.headers 0 0) (segment2 (binary64.two_nodes 0 0 3 0 0 1 1 0))
    = Returns [ 1; 0x1.ffffffffffffep-2; 0x1.ffffffffffffep-2; 1 ]%float /\
  (1 * 1 * 3 / 6 * 1 = 0.5)%float /\
  PrimFloat.eqb 0x1.ffffffffffffep-2 (1 * 1 * 3 / 6 * 1) = false /\
  computeBe (F := binary64.headers 0 0) (segment2 (binary64.two_nodes 1 0 3 0 0 5 7 0))
    = Returns [ 0x1.7555555555555p+4; 0x1.7555555555554p+3;
                0x1.7555555555554p+3; 0x1.7555555555555p+4 ]%float /\
  (7 * 5 * 2 / 6 * 1 = 0x1.7555555555555p+3)%float /\
  PrimFloat.eqb 0x1.7555555555554p+3 (7 * 5 * 2 / 6 * 1) = false.
Proof. repeat split; vm_compute; reflexivity. Qed.
